(** * Scene playback controller of the presentation player

    A shallow embedding of [src/components/PresentationPlayer.tsx]:
    the audio utilities ([decodeAudioData]), the React state of the
    [PresentationPlayer] component, its event handlers ([handleNext],
    [jumpToScene], [reset], [togglePlay], [toggleNarration],
    [playCaption]) and its two effects (the narration effect and the
    animation loop).

    Numbers.  JavaScript numbers are modelled by exact values: scene
    indices and times by [Z], the progress percentage and the decoded
    audio samples by [Q].  A 16-bit integer divided by [32768 = 2^15] is
    exactly representable in binary32 and binary64, so for the decoder
    the rational value is the stored value.  The state machine of the
    player adds up the progress percentage exactly, which decides neither
    the branch structure nor anything proved of it; the sums of the
    program itself, rounded to binary64, are those of [Clock].

    React.  An event runs its handler on the current state, the component
    renders, and the effects whose dependencies changed run.  Mounting
    and unmounting are not modelled. *)

From Stdlib Require Import ZArith QArith List String Bool Lia PeanoNat.
From Stdlib Require Import Strings.Byte.
From Stdlib Require Import DecimalString Permutation Sorted.
From Stdlib Require Import Floats.PrimFloat.
Import ListNotations.

Open Scope Z_scope.

(** ** Audio utilities *)

Module Audio.

(** Exceptions the browser raises inside [decodeAudioData]. *)
Inductive Exn : Type :=
| RangeError          (* new Int16Array(buffer): odd byte length *)
| NotSupportedError.  (* createBuffer: an argument out of range *)

Inductive result (A : Type) : Type :=
| Ok (a : A)
| Throw (e : Exn).

Arguments Ok {A} a.
Arguments Throw {A} e.

(** One little-endian signed 16-bit element of the [Int16Array] view. *)
Definition int16_of_bytes (lo hi : byte) : Z :=
  let u := Z.of_N (Byte.to_N lo) + 256 * Z.of_N (Byte.to_N hi) in
  if u <? 32768 then u else u - 65536.

(** [new Int16Array(data.buffer)]: the bytes viewed as 16-bit samples;
    a buffer of odd byte length is refused. *)
Fixpoint Int16Array (data : list byte) : result (list Z) :=
  match data with
  | [] => Ok []
  | [_] => Throw RangeError
  | lo :: hi :: rest =>
      match Int16Array rest with
      | Ok samples => Ok (int16_of_bytes lo hi :: samples)
      | Throw e => Throw e
      end
  end.

(** The [AudioBuffer] produced by [ctx.createBuffer]. *)
Record AudioBuffer : Type := mkAudioBuffer {
  numberOfChannels : nat;
  length : nat;
  sampleRate : Z;
  channels : list (list Q)
}.

Definition getChannelData (buffer : AudioBuffer) (channel : nat) : list Q :=
  nth channel (channels buffer) [].

(** [ctx.createBuffer(numberOfChannels, length, sampleRate)] throws a
    NotSupportedError when an argument is zero, negative or outside its
    nominal range.  The ranges are those every implementation of the Web
    Audio API has to support: 1 to 32 channels, at least one frame, 8000
    to 96000 Hz.  A browser may accept more; the theorems that promise a
    buffer assume arguments inside these ranges. *)
Definition createBuffer_accepts (numberOfChannels length : nat)
    (sampleRate : Z) : bool :=
  (1 <=? numberOfChannels)%nat && (numberOfChannels <=? 32)%nat
  && (1 <=? length)%nat
  && (8000 <=? sampleRate) && (sampleRate <=? 96000).

(** [decodeAudioData(data, ctx, sampleRate, numChannels)].

    [frameCount] is [dataInt16.length / numChannels]; [createBuffer]
    takes it as an unsigned long, which drops a fractional part (and
    makes 0 of the infinite or undefined quotient by zero channels).  The
    two nested loops store [dataInt16[i * numChannels + channel] /
    32768.0] at frame [i] of channel [channel]; a store past the end of
    the channel data (the last, partial frame) has no effect. *)
Definition decodeAudioData (data : list byte) (sampleRate : Z)
    (numChannels : nat) : result AudioBuffer :=
  match Int16Array data with
  | Throw e => Throw e
  | Ok dataInt16 =>
      let frameCount := (List.length dataInt16 / numChannels)%nat in
      if createBuffer_accepts numChannels frameCount sampleRate
      then
        Ok {| numberOfChannels := numChannels;
              length := frameCount;
              sampleRate := sampleRate;
              channels :=
                map (fun channel =>
                       map (fun i =>
                              (inject_Z
                                 (nth (i * numChannels + channel)%nat
                                      dataInt16 0%Z)
                               / 32768)%Q)
                           (seq 0 frameCount))
                    (seq 0 numChannels) |}
      else Throw NotSupportedError
  end.

End Audio.

(** ** The presentation player *)

Module Player.

Import Audio.

(** A scene of the catalog; the [render] function of the source is view
    code and is left out. *)
Record Scene : Type := mkScene {
  id : string;
  title : string;
  caption : string
}.

Definition SCENE_DURATION : Q := 12000.

(** What one firing of the 100 ms interval adds to [progress]. *)
Definition tick_increment : Q := (100 / (SCENE_DURATION / 100))%Q.

(** The component's [useState] values and [useRef] cells, together with
    the part of the browser the handlers act on: the clock, the pending
    [setTimeout] callbacks (each one is [setPrevScene(null)], kept by its
    deadline), the [generateContent] calls still awaited by [playCaption]
    and the audio sources that are started and neither stopped nor
    ended. *)
Record PlayerState : Type := mkState {
  isPlaying : bool;
  currentScene : Z;
  prevScene : option Z;
  progress : Q;
  isFullscreen : bool;
  isHoveringChart : bool;
  isNarrating : bool;
  audioContextRef : bool;           (* false: null, true: created *)
  activeSourceRef : option nat;
  now : Z;
  timers : list Z;
  requests : list (nat * string);   (* request id, caption text *)
  sounding : list nat;
  fresh : nat                       (* next request or source id *)
}.

Definition set_isPlaying (v : bool) (s : PlayerState) : PlayerState :=
  mkState v (currentScene s) (prevScene s) (progress s) (isFullscreen s)
    (isHoveringChart s) (isNarrating s) (audioContextRef s)
    (activeSourceRef s) (now s) (timers s) (requests s) (sounding s) (fresh s).

Definition set_currentScene (v : Z) (s : PlayerState) : PlayerState :=
  mkState (isPlaying s) v (prevScene s) (progress s) (isFullscreen s)
    (isHoveringChart s) (isNarrating s) (audioContextRef s)
    (activeSourceRef s) (now s) (timers s) (requests s) (sounding s) (fresh s).

Definition set_prevScene (v : option Z) (s : PlayerState) : PlayerState :=
  mkState (isPlaying s) (currentScene s) v (progress s) (isFullscreen s)
    (isHoveringChart s) (isNarrating s) (audioContextRef s)
    (activeSourceRef s) (now s) (timers s) (requests s) (sounding s) (fresh s).

Definition set_progress (v : Q) (s : PlayerState) : PlayerState :=
  mkState (isPlaying s) (currentScene s) (prevScene s) v (isFullscreen s)
    (isHoveringChart s) (isNarrating s) (audioContextRef s)
    (activeSourceRef s) (now s) (timers s) (requests s) (sounding s) (fresh s).

Definition set_isFullscreen (v : bool) (s : PlayerState) : PlayerState :=
  mkState (isPlaying s) (currentScene s) (prevScene s) (progress s) v
    (isHoveringChart s) (isNarrating s) (audioContextRef s)
    (activeSourceRef s) (now s) (timers s) (requests s) (sounding s) (fresh s).

Definition set_isHoveringChart (v : bool) (s : PlayerState) : PlayerState :=
  mkState (isPlaying s) (currentScene s) (prevScene s) (progress s)
    (isFullscreen s) v (isNarrating s) (audioContextRef s)
    (activeSourceRef s) (now s) (timers s) (requests s) (sounding s) (fresh s).

Definition set_isNarrating (v : bool) (s : PlayerState) : PlayerState :=
  mkState (isPlaying s) (currentScene s) (prevScene s) (progress s)
    (isFullscreen s) (isHoveringChart s) v (audioContextRef s)
    (activeSourceRef s) (now s) (timers s) (requests s) (sounding s) (fresh s).

Definition set_audioContextRef (v : bool) (s : PlayerState) : PlayerState :=
  mkState (isPlaying s) (currentScene s) (prevScene s) (progress s)
    (isFullscreen s) (isHoveringChart s) (isNarrating s) v
    (activeSourceRef s) (now s) (timers s) (requests s) (sounding s) (fresh s).

Definition set_activeSourceRef (v : option nat) (s : PlayerState)
  : PlayerState :=
  mkState (isPlaying s) (currentScene s) (prevScene s) (progress s)
    (isFullscreen s) (isHoveringChart s) (isNarrating s) (audioContextRef s)
    v (now s) (timers s) (requests s) (sounding s) (fresh s).

Definition set_now (v : Z) (s : PlayerState) : PlayerState :=
  mkState (isPlaying s) (currentScene s) (prevScene s) (progress s)
    (isFullscreen s) (isHoveringChart s) (isNarrating s) (audioContextRef s)
    (activeSourceRef s) v (timers s) (requests s) (sounding s) (fresh s).

Definition set_timers (v : list Z) (s : PlayerState) : PlayerState :=
  mkState (isPlaying s) (currentScene s) (prevScene s) (progress s)
    (isFullscreen s) (isHoveringChart s) (isNarrating s) (audioContextRef s)
    (activeSourceRef s) (now s) v (requests s) (sounding s) (fresh s).

Definition set_requests (v : list (nat * string)) (s : PlayerState)
  : PlayerState :=
  mkState (isPlaying s) (currentScene s) (prevScene s) (progress s)
    (isFullscreen s) (isHoveringChart s) (isNarrating s) (audioContextRef s)
    (activeSourceRef s) (now s) (timers s) v (sounding s) (fresh s).

Definition set_sounding (v : list nat) (s : PlayerState) : PlayerState :=
  mkState (isPlaying s) (currentScene s) (prevScene s) (progress s)
    (isFullscreen s) (isHoveringChart s) (isNarrating s) (audioContextRef s)
    (activeSourceRef s) (now s) (timers s) (requests s) v (fresh s).

Definition set_fresh (v : nat) (s : PlayerState) : PlayerState :=
  mkState (isPlaying s) (currentScene s) (prevScene s) (progress s)
    (isFullscreen s) (isHoveringChart s) (isNarrating s) (audioContextRef s)
    (activeSourceRef s) (now s) (timers s) (requests s) (sounding s) v.

(** The state of a freshly mounted component. *)
Definition init : PlayerState :=
  mkState false 0 None 0%Q false false false false None 0 [] [] [] 0%nat.

(** What an awaited [generateContent] call settles to: a rejection (an
    inline data string that [atob] refuses takes the same path), a
    response whose inline data is missing or the empty string, or a
    non-empty inline data string, given by the bytes [decodeBase64]
    returns for it. *)
Inductive Response : Type :=
| Failure
| NoAudio
| InlineData (audioBytes : list byte).

(** Everything that can happen to a mounted player: the clicks of the
    control deck, the click on a progress segment, the replay button of
    the last scene, the pointer entering or leaving a chart, a firing of
    the 100 ms interval, the passing of time, the settling of a narration
    request and the natural end of an audio source. *)
Inductive Event : Type :=
| TogglePlay
| Reset
| JumpTo (index : Z)
| ToggleNarration
| Replay
| MouseEnter
| MouseLeave
| FullscreenChange (value : bool)
| Tick
| Elapse (ms : Z)
| Settle (request : nat) (r : Response)
| Ended (source : nat).

(** [source.stop()]: the source no longer sounds; stopping a source that
    already stopped changes nothing. *)
Definition stop (source : nat) (s : PlayerState) : PlayerState :=
  set_sounding (filter (fun x => negb (x =? source)%nat) (sounding s)) s.

(** [playCaption(text)] up to its first [await]: without an audio context
    nothing happens; otherwise the source in [activeSourceRef] is stopped
    and forgotten, and the synthesis request is sent. *)
Definition playCaption (text : string) (s : PlayerState) : PlayerState :=
  if negb (audioContextRef s) then s
  else
    let s1 := match activeSourceRef s with
              | Some source => set_activeSourceRef None (stop source s)
              | None => s
              end in
    set_fresh (S (fresh s1))
      (set_requests (requests s1 ++ [(fresh s1, text)]) s1).

(** [playCaption] after the [await]: the continuation of request
    [request], once the service has answered with [r]. *)
Definition settle (request : nat) (r : Response) (s : PlayerState)
  : PlayerState :=
  if existsb (fun p => (fst p =? request)%nat) (requests s) then
    let s1 := set_requests
                (filter (fun p => negb (fst p =? request)%nat) (requests s))
                s in
    match r with
    | Failure => set_isNarrating false s1
    | NoAudio => s1
    | InlineData audioBytes =>
        match decodeAudioData audioBytes 24000 1 with
        | Throw _ => set_isNarrating false s1
        | Ok _ =>
            let source := fresh s1 in
            set_activeSourceRef (Some source)
              (set_sounding (sounding s1 ++ [source])
                 (set_fresh (S source) s1))
        end
    end
  else s.

Definition togglePlay (s : PlayerState) : PlayerState :=
  set_isPlaying (negb (isPlaying s)) s.

Definition reset (s : PlayerState) : PlayerState :=
  set_progress 0%Q (set_currentScene 0 (set_isPlaying false s)).

Definition jumpToScene (index : Z) (s : PlayerState) : PlayerState :=
  if index =? currentScene s then s
  else
    set_timers (timers s ++ [now s + 800])
      (set_progress 0%Q
         (set_currentScene index
            (set_prevScene (Some (currentScene s)) s))).

(** [setTimeout] callbacks that are due fire when time passes. *)
Definition elapse (ms : Z) (s : PlayerState) : PlayerState :=
  if ms <? 0 then s
  else
    let t := now s + ms in
    let s1 := set_now t
                (set_timers (filter (fun d => negb (d <=? t)) (timers s)) s) in
    if existsb (fun d => d <=? t) (timers s)
    then set_prevScene None s1
    else s1.

(** ** Predicates on states *)

(** Two states that differ on the audio side only. *)
Definition same_view (a b : PlayerState) : Prop :=
  isPlaying a = isPlaying b /\ currentScene a = currentScene b /\
  prevScene a = prevScene b /\ progress a = progress b /\
  isFullscreen a = isFullscreen b /\
  isHoveringChart a = isHoveringChart b /\
  isNarrating a = isNarrating b /\ now a = now b /\ timers a = timers b.

(** Every pending timer is due within the next 800 ms, and a transition
    record is only present while a timer is pending. *)
Definition timers_ok (s : PlayerState) : Prop :=
  Forall (fun d => now s < d <= now s + 800) (timers s) /\
  (prevScene s <> None -> timers s <> []).

Section Catalog.

Variable scenes : list Scene.

(** [scenes[index]], undefined outside the catalog. *)
Definition scene_at (index : Z) : option Scene :=
  if index <? 0 then None else nth_error scenes (Z.to_nat index).

(** [playCaption(scenes[currentScene].caption)]; when the index is outside
    the catalog [scenes[currentScene]] is undefined, the property access
    throws and nothing is requested. *)
Definition narrate (s : PlayerState) : PlayerState :=
  match scene_at (currentScene s) with
  | Some scene => playCaption (caption scene) s
  | None => s
  end.

Definition toggleNarration (s : PlayerState) : PlayerState :=
  let s1 := set_audioContextRef true s in
  let newState := negb (isNarrating s1) in
  let s2 := set_isNarrating newState s1 in
  if negb newState then
    match activeSourceRef s2 with
    | Some source => stop source s2
    | None => s2
    end
  else narrate s2.

Definition handleNext (s : PlayerState) : PlayerState :=
  let length := Z.of_nat (List.length scenes) in
  let nextIndex :=
    if currentScene s <? length - 1 then currentScene s + 1 else 0 in
  let s1 := set_progress 0%Q
              (set_currentScene nextIndex
                 (set_prevScene (Some (currentScene s)) s)) in
  let s2 := if (nextIndex =? 0) && (currentScene s =? length - 1)
            then set_isPlaying false s1 else s1 in
  set_timers (timers s2 ++ [now s2 + 800]) s2.

(** One firing of the interval of the animation loop; the interval only
    exists while [isPlaying && !isHoveringChart].  The sum is exact here;
    [Clock.updater] is the same function over binary64. *)
Definition tick (s : PlayerState) : PlayerState :=
  if isPlaying s && negb (isHoveringChart s) then
    let next := (progress s + tick_increment)%Q in
    if Qle_bool 100 next
    then set_progress 0%Q (handleNext s)
    else set_progress next s
  else s.

(** The firing of the interval that calls [handleNext]. *)
Definition advances (s : PlayerState) : bool :=
  isPlaying s && negb (isHoveringChart s)
  && Qle_bool 100 (progress s + tick_increment).

(** The event handlers. *)
Definition handle (e : Event) (s : PlayerState) : PlayerState :=
  match e with
  | TogglePlay => togglePlay s
  | Reset => reset s
  | JumpTo index => jumpToScene index s
  | ToggleNarration => toggleNarration s
  | Replay => set_currentScene 0 s
  | MouseEnter => set_isHoveringChart true s
  | MouseLeave => set_isHoveringChart false s
  | FullscreenChange value => set_isFullscreen value s
  | Tick => tick s
  | Elapse ms => elapse ms s
  | Settle request r => settle request r s
  | Ended source => stop source s
  end.

(** The narration effect, with dependencies [currentScene] and
    [isNarrating]: when one of them changed in the render, the cleanup of
    the previous run stops the active source and the effect narrates the
    current scene if narration is on. *)
Definition narration_effect (old new : PlayerState) : PlayerState :=
  if (currentScene old =? currentScene new)
     && Bool.eqb (isNarrating old) (isNarrating new)
  then new
  else
    let cleaned := match activeSourceRef new with
                   | Some source => stop source new
                   | None => new
                   end in
    if isNarrating cleaned then narrate cleaned else cleaned.

(** One event: the handler runs, React renders, the effects run. *)
Definition step (s : PlayerState) (e : Event) : PlayerState :=
  narration_effect s (handle e s).

Definition run (events : list Event) (s : PlayerState) : PlayerState :=
  fold_left step events s.

(** The events that call [setPrevScene] with a scene: a jump to another
    scene and an advancing tick. *)
Definition begins_transition (s : PlayerState) (e : Event) : bool :=
  match e with
  | JumpTo index => negb (index =? currentScene s)
  | Tick => advances s
  | _ => false
  end.

(** A run in which no transition begins. *)
Fixpoint quiet (s : PlayerState) (events : list Event) : bool :=
  match events with
  | [] => true
  | e :: rest => negb (begins_transition s e) && quiet (step s e) rest
  end.

(** The jumps the progress bar can issue: it has one segment per scene. *)
Definition from_progress_bar (e : Event) : bool :=
  match e with
  | JumpTo index => (0 <=? index) && (index <? Z.of_nat (List.length scenes))
  | _ => true
  end.

(** The scene index points into the catalog. *)
Definition index_in_range (s : PlayerState) : Prop :=
  0 <= currentScene s < Z.of_nat (List.length scenes).

End Catalog.

(** The time that passes during a run. *)
Fixpoint elapsed (events : list Event) : Z :=
  match events with
  | [] => 0
  | Elapse ms :: rest => Z.max 0 ms + elapsed rest
  | _ :: rest => elapsed rest
  end.

(** The answers that take [playCaption] into its [catch] block. *)
Definition narration_fails (r : Response) : bool :=
  match r with
  | Failure => true
  | NoAudio => false
  | InlineData audioBytes =>
      match decodeAudioData audioBytes 24000 1 with
      | Throw _ => true
      | Ok _ => false
      end
  end.

(** The catalog of the source: seven scenes. *)
Definition presentation : list Scene :=
  [ mkScene "intro" "MISSION BRIEFING"
      "In the modern age, social media is the first alert system. Our goal is to filter the noise and detect genuine emergencies instantly.";
    mkScene "data" "INTEL: THE DATASET"
      "We are working with the Kaggle NLP dataset. It contains over 10,000 tweets, hand-labeled to indicate whether they are about a real disaster or not.";
    mkScene "preprocessing" "PRE-PROCESSING"
      "Before the model can 'read', we must translate text into numbers. We use the RoBERTa tokenizer to break sentences into sub-word tokens and map them to their vocabulary IDs.";
    mkScene "architecture" "THE ARCHITECTURE"
      "We employ Transfer Learning. Instead of teaching a model English from scratch, we use RoBERTa, which already understands syntax and nuance, and fine-tune it to detect disasters.";
    mkScene "training" "TRAINING OPERATIONS"
      "The training curves show a healthy convergence. Interactive chart: drag the slider at the bottom to zoom into specific epochs. Hovering pauses the briefing.";
    mkScene "validation" "CROSS-VALIDATION"
      "We didn't just train once. We used Stratified 5-Fold Cross Validation to ensure our model performs consistently across different subsets of data. Green line indicates average performance.";
    mkScene "deployment" "SYSTEM READY"
      "The system is now fully operational. It effectively disambiguates critical information from noise, providing a reliable tool for emergency responders." ].

End Player.

(** ** The clock of the animation loop, in binary64 *)

Module Clock.

Local Open Scope float_scope.

(** The numbers of the source are binary64 numbers, and so are the
    numbers here: every operation rounds as the program's does. *)
Definition SCENE_DURATION : float := 12000.

(** [100 / (SCENE_DURATION / 100)], the binary64 number nearest to
    100/120: 0.8333333333333334. *)
Definition increment : float := 100 / (SCENE_DURATION / 100).

(** The function the interval callback passes to [setProgress].  The
    second component tells whether [handleNext()] is called. *)
Definition updater (prev : float) : float * bool :=
  let next := prev + increment in
  if 100 <=? next then (0, true) else (next, false).

(** The progress after [n] firings of the interval, from progress 0. *)
Fixpoint after (n : nat) : float :=
  match n with
  | O => 0
  | S k => fst (updater (after k))
  end.

End Clock.

(** ** The typing animation *)

Module TypingText.

(** The state of one [TypingText] component: its two [useState] values,
    the start timeout while it is pending, and the counter [i] and the
    interval of the second effect.  The characters of a string stand for
    the code units of the JavaScript string. *)
Record State : Type := mkState {
  displayedText : string;
  started : bool;
  startTimeout : bool;
  i : nat;
  interval : bool
}.

Definition init : State := mkState "" false true 0 false.

Inductive Event : Type :=
| TimeoutFires     (* the start timeout, after [delay] ms *)
| IntervalFires.   (* the typing interval, every [speed] ms *)

Section Props.

Variable text : string.

(** The start timeout sets [started]; the second effect then runs with
    [i = 0] and creates the interval.  A firing of the interval shows
    [text.substring(0, i + 1)], increments [i] and clears the interval
    once [i > text.length]. *)
Definition step (s : State) (e : Event) : State :=
  match e with
  | TimeoutFires =>
      if startTimeout s
      then mkState (displayedText s) true false 0 true
      else s
  | IntervalFires =>
      if interval s
      then mkState (substring 0 (i s + 1) text) (started s) (startTimeout s)
             (S (i s)) (negb (String.length text <? S (i s))%nat)
      else s
  end.

Definition run (events : list Event) (s : State) : State :=
  fold_left step events s.

(** The blinking cursor of the rendered paragraph. *)
Definition cursor (s : State) : bool :=
  started s && (String.length (displayedText s) <? String.length text)%nat.

(** What holds of the component whatever fires, in whatever order. *)
Definition typing_ok (s : State) : Prop :=
  displayedText s = substring 0 (i s) text /\
  (started s = false -> i s = 0%nat /\ interval s = false) /\
  (startTimeout s = true -> started s = false).

End Props.

End TypingText.

(** ** The insight request of the dashboard *)

Module Insights.

(** [aiInsight] and [isGenerating] of [MetricsDashboard], with the number
    of [generateContent] calls that [generateInsights] still awaits. *)
Record State : Type := mkState {
  aiInsight : option string;
  isGenerating : bool;
  inflight : nat
}.

Definition init : State := mkState None false 0.

(** What the awaited call settles to: a response, whose [text] may be
    undefined, or a rejection. *)
Inductive Answer : Type :=
| Response (text : option string)
| Rejected.

Inductive Event : Type :=
| ClickInsights
| Settle (a : Answer)
| Dismiss.

Definition failure_message : string :=
  "Could not generate insights. Please check API key.".

(** [generateInsights] up to its [await]. *)
Definition generateInsights (s : State) : State :=
  mkState (aiInsight s) true (S (inflight s)).

(** [generateInsights] after the [await]: the [try], [catch] and
    [finally] blocks. *)
Definition settle (a : Answer) (s : State) : State :=
  match inflight s with
  | O => s
  | S n =>
      mkState
        match a with
        | Response text => text
        | Rejected => Some failure_message
        end
        false n
  end.

(** The insights button is disabled while [isGenerating]. *)
Definition step (s : State) (e : Event) : State :=
  match e with
  | ClickInsights => if isGenerating s then s else generateInsights s
  | Settle a => settle a s
  | Dismiss => mkState None (isGenerating s) (inflight s)
  end.

Definition run (events : list Event) (s : State) : State :=
  fold_left step events s.

End Insights.

(** ** The training metrics *)

Module Metrics.

(** Modelled from the spec: the declaration of [MetricData] in [../types]
    is not among the sources, and the spec only says that the summary
    data is aggregated per fold and epoch.  The fields are the ones the
    two components compute with; [valF1] and [valLoss] are optional. *)
Record MetricData : Type := mkMetric {
  type : string;
  fold : Z;
  epoch : Z;
  valF1 : option Q;
  valLoss : option Q
}.

(** A number in a condition: undefined and 0 count as false. *)
Definition truthy (v : option Q) : bool :=
  match v with
  | Some q => negb (Qeq_bool q 0)
  | None => false
  end.

(** [v || 0]. *)
Definition or_zero (v : option Q) : Q :=
  match v with
  | Some q => if Qeq_bool q 0 then 0%Q else q
  | None => 0%Q
  end.

Definition Qltb (a b : Q) : bool := negb (Qle_bool b a).

(** Metrics of a short training run over two folds, to try the summaries
    on. *)
Definition sample : list MetricData :=
  [ mkMetric "step" 1 1 None None;
    mkMetric "epoch_end" 1 1 (Some (4 # 5)) (Some (1 # 2));
    mkMetric "epoch_end" 2 1 (Some (3 # 4)) (Some (3 # 5));
    mkMetric "epoch_end" 1 2 (Some (41 # 50)) (Some (9 # 20)) ].

Section Sort.

Context {A : Type}.

(** [before a b] stands for [compareFn(a, b) <= 0]. *)
Variable before : A -> A -> bool.

Fixpoint insert (x : A) (l : list A) : list A :=
  match l with
  | [] => [x]
  | y :: rest => if before x y then x :: l else y :: insert x rest
  end.

(** [Array.prototype.sort] with a compare function: a stable sort. *)
Definition sort (l : list A) : list A := fold_right insert [] l.

End Sort.

End Metrics.

(** *** The dashboard *)

Module Dashboard.

Import Metrics.

Definition stepData (metrics : list MetricData) : list MetricData :=
  filter (fun m => String.eqb (type m) "step") metrics.

Definition epochData (metrics : list MetricData) : list MetricData :=
  filter (fun m => String.eqb (type m) "epoch_end") metrics.

(** An entry of the [folds] record; [sfold] is its [fold] field. *)
Record FoldSummary : Type := mkFold {
  sfold : Z;
  maxF1 : Q;
  minLoss : Q;
  epochs : Z
}.

(** [folds[key]] *)
Fixpoint get (key : Z) (folds : list FoldSummary) : option FoldSummary :=
  match folds with
  | [] => None
  | f :: rest => if sfold f =? key then Some f else get key rest
  end.

(** The entry of a key is replaced in place; a new key goes last. *)
Fixpoint put (entry : FoldSummary) (folds : list FoldSummary)
  : list FoldSummary :=
  match folds with
  | [] => [entry]
  | f :: rest =>
      if sfold f =? sfold entry then entry :: rest else f :: put entry rest
  end.

(** What one metric does to the entry of its fold: [epochs] takes the
    larger epoch, [maxF1] a larger non-zero [valF1], [minLoss] a smaller
    non-zero [valLoss]. *)
Definition update (f0 : FoldSummary) (m : MetricData) : FoldSummary :=
  let f1 := mkFold (sfold f0) (maxF1 f0) (minLoss f0)
              (Z.max (epochs f0) (epoch m)) in
  let f2 := match valF1 m with
            | Some v =>
                if truthy (valF1 m) && Qltb (maxF1 f1) v
                then mkFold (sfold f1) v (minLoss f1) (epochs f1)
                else f1
            | None => f1
            end in
  match valLoss m with
  | Some l =>
      if truthy (valLoss m) && Qltb l (minLoss f2)
      then mkFold (sfold f2) (maxF1 f2) l (epochs f2)
      else f2
  | None => f2
  end.

(** The body of the [forEach] of [foldSummary]: the entry of the fold is
    created when it is missing, then updated. *)
Definition record (folds : list FoldSummary) (m : MetricData)
  : list FoldSummary :=
  put (update match get (fold m) folds with
              | Some f => f
              | None => mkFold (fold m) 0 100 0
              end m)
      folds.

Definition by_fold (a b : FoldSummary) : bool := sfold a <=? sfold b.

(** The keys that are array indices come first in [Object.values], in
    ascending order; the other keys follow in insertion order. *)
Definition is_array_index (key : Z) : bool :=
  (0 <=? key) && (key <? 4294967295).

Definition object_values (folds : list FoldSummary) : list FoldSummary :=
  sort by_fold (filter (fun f => is_array_index (sfold f)) folds)
  ++ filter (fun f => negb (is_array_index (sfold f))) folds.

Definition foldSummary (metrics : list MetricData) : list FoldSummary :=
  sort by_fold (object_values (fold_left record (epochData metrics) [])).

(** What an entry says about the metrics of its fold. *)
Definition entry_ok (ms : list MetricData) (f : FoldSummary) : Prop :=
  (exists m, In m ms /\ fold m = sfold f) /\
  (0 <= maxF1 f)%Q /\ (minLoss f <= 100)%Q /\ 0 <= epochs f /\
  (maxF1 f = 0%Q \/
   exists m, In m ms /\ fold m = sfold f /\ valF1 m = Some (maxF1 f)) /\
  (forall m, In m ms -> fold m = sfold f ->
     epoch m <= epochs f /\
     (forall v, valF1 m = Some v -> (v <= maxF1 f)%Q) /\
     (forall l, valLoss m = Some l -> ~ (l == 0)%Q -> (minLoss f <= l)%Q)).

(** The [folds] record after the metrics [ms] were recorded. *)
Definition summarises (ms : list MetricData) (folds : list FoldSummary)
  : Prop :=
  NoDup (map sfold folds) /\
  (forall f, In f folds -> entry_ok ms f) /\
  (forall m, In m ms -> In (fold m) (map sfold folds)).

End Dashboard.

(** *** The slides *)

Module Slides.

Import Metrics.

Record FoldPerformance : Type := mkPerformance {
  label : string;     (* the [fold] field: "Fold 1", ... *)
  f1 : Q;
  loss : Q
}.

(** [(a, b) => (b.valF1 || 0) - (a.valF1 || 0)] is at most 0. *)
Definition best_first (a b : MetricData) : bool :=
  Qle_bool (or_zero (valF1 b)) (or_zero (valF1 a)).

Definition is_defined (v : option Q) : bool :=
  match v with Some _ => true | None => false end.

Definition foldMetrics (metrics : list MetricData) (foldNum : Z)
  : list MetricData :=
  filter (fun m => (fold m =? foldNum) && is_defined (valF1 m)) metrics.

Definition bestMetric (metrics : list MetricData) (foldNum : Z)
  : option MetricData :=
  hd_error (sort best_first (foldMetrics metrics foldNum)).

Definition performance (metrics : list MetricData) (foldNum : Z)
  : FoldPerformance :=
  let best := bestMetric metrics foldNum in
  mkPerformance
    ("Fold " ++ NilZero.string_of_int (Z.to_int foldNum))
    (or_zero (match best with Some m => valF1 m | None => None end))
    (or_zero (match best with Some m => valLoss m | None => None end)).

Definition folds : list Z := [1; 2; 3; 4; 5].

Definition foldPerformance (metrics : list MetricData)
  : list FoldPerformance :=
  map (performance metrics) folds.

End Slides.

(** * Properties *)

(** ** The audio decoder *)

Section DecoderFacts.

Import Audio.

Lemma int16_of_bytes_range lo hi :
  -32768 <= int16_of_bytes lo hi <= 32767.
Proof.
  unfold int16_of_bytes.
  pose proof (Byte.to_N_bounded lo) as Hlo.
  pose proof (Byte.to_N_bounded hi) as Hhi.
  destruct (Z.ltb_spec (Z.of_N (to_N lo) + 256 * Z.of_N (to_N hi)) 32768); lia.
Qed.

(** Induction two bytes at a time, the way the view is laid out. *)
Lemma byte_pairs_ind (P : list byte -> Prop) :
  P [] -> (forall b, P [b]) ->
  (forall lo hi rest, P rest -> P (lo :: hi :: rest)) ->
  forall data, P data.
Proof.
  intros Hnil Hone Hstep.
  assert (H : forall data, P data /\ forall b, P (b :: data)).
  { induction data as [|b data [IH1 IH2]]; split; auto. }
  intros data. apply H.
Qed.

Lemma Int16Array_samples data : forall dataInt16,
  Int16Array data = Ok dataInt16 ->
  Forall (fun v => -32768 <= v <= 32767) dataInt16.
Proof.
  induction data as [| b | lo hi rest IH] using byte_pairs_ind;
    intros dataInt16 H; simpl in H.
  - inversion H. constructor.
  - discriminate.
  - destruct (Int16Array rest) as [samples|e]; [|discriminate].
    inversion H; subst. constructor.
    + apply int16_of_bytes_range.
    + apply IH. reflexivity.
Qed.

Lemma Int16Array_even data :
  Nat.even (List.length data) = true ->
  exists dataInt16, Int16Array data = Ok dataInt16 /\
                    (2 * List.length dataInt16 = List.length data)%nat.
Proof.
  induction data as [| b | lo hi rest IH] using byte_pairs_ind; intros H.
  - exists []. split; reflexivity.
  - discriminate.
  - destruct (IH H) as [samples [E L]].
    exists (int16_of_bytes lo hi :: samples). simpl. rewrite E.
    split; [reflexivity|]. simpl in *. lia.
Qed.

Lemma Int16Array_odd data :
  Nat.even (List.length data) = false -> Int16Array data = Throw RangeError.
Proof.
  induction data as [| b | lo hi rest IH] using byte_pairs_ind; intros H.
  - discriminate.
  - reflexivity.
  - simpl. rewrite (IH H). reflexivity.
Qed.

Lemma normalized_range v :
  -32768 <= v <= 32767 ->
  (-1 <= inject_Z v / 32768 /\ inject_Z v / 32768 <= 1)%Q.
Proof.
  intros Hv. unfold Qle, Qdiv, Qmult, Qinv, inject_Z. simpl. lia.
Qed.

Lemma frame_index_in_range (len numChannels channel i : nat) :
  (channel < numChannels)%nat -> (i < len / numChannels)%nat ->
  (i * numChannels + channel < len)%nat.
Proof.
  intros Hc Hi.
  assert (Hn : numChannels <> 0%nat) by lia.
  pose proof (Nat.Div0.mul_div_le len numChannels) as Hle.
  nia.
Qed.

Lemma nth_map_seq {A : Type} (f : nat -> A) (n len : nat) (d : A) :
  (n < len)%nat -> nth n (map f (seq 0 len)) d = f n.
Proof.
  intros Hn.
  rewrite (nth_indep _ d (f 0%nat)) by (rewrite length_map, length_seq; lia).
  rewrite map_nth, seq_nth by lia. reflexivity.
Qed.

Lemma createBuffer_accepts_iff (numberOfChannels length : nat) (rate : Z) :
  createBuffer_accepts numberOfChannels length rate = true <->
  (1 <= numberOfChannels <= 32)%nat /\ (1 <= length)%nat /\
  8000 <= rate <= 96000.
Proof.
  unfold createBuffer_accepts.
  rewrite !andb_true_iff, !Nat.leb_le, !Z.leb_le. tauto.
Qed.

(** C10.  Decoding is a function of the payload alone.  For a payload that
    is a whole number of 16-bit samples, interleaved over [numChannels]
    channels, a decoded buffer has [numChannels] channels in which frame
    [i] of channel [c] is [sample[i * numChannels + c] / 32768], a value
    between -1 and 1.  The buffer is produced whenever the payload holds
    at least one frame and the channel count and the sample rate are in
    the supported ranges. *)
Theorem decodeAudioData_normalizes
    (data : list byte) (rate : Z) (numChannels : nat) (dataInt16 : list Z) :
  Int16Array data = Ok dataInt16 ->
  (forall buffer,
     decodeAudioData data rate numChannels = Ok buffer ->
     numberOfChannels buffer = numChannels /\
     length buffer = (List.length dataInt16 / numChannels)%nat /\
     forall channel i,
       (channel < numChannels)%nat -> (i < length buffer)%nat ->
       exists sample v,
         nth_error dataInt16 (i * numChannels + channel) = Some sample /\
         nth_error (getChannelData buffer channel) i = Some v /\
         v = (inject_Z sample / 32768)%Q /\
         (-1 <= v)%Q /\ (v <= 1)%Q) /\
  ((1 <= numChannels <= 32)%nat ->
   (numChannels <= List.length dataInt16)%nat ->
   8000 <= rate <= 96000 ->
   exists buffer, decodeAudioData data rate numChannels = Ok buffer).
Proof.
  intros Hview. unfold decodeAudioData. rewrite Hview. split.
  - intros buffer Hdecode.
    destruct (createBuffer_accepts numChannels
                (List.length dataInt16 / numChannels) rate);
      [|discriminate].
    inversion Hdecode; subst buffer; clear Hdecode. simpl.
    split; [reflexivity|]. split; [reflexivity|].
    intros channel i Hc Hi.
    pose proof (frame_index_in_range _ _ _ _ Hc Hi) as Hidx.
    exists (nth (i * numChannels + channel) dataInt16 0).
    eexists. split; [|split; [|split; [reflexivity|]]].
    + apply nth_error_nth'. exact Hidx.
    + unfold getChannelData. simpl.
      rewrite nth_map_seq by exact Hc.
      rewrite (nth_error_nth' _ 0%Q)
        by (rewrite length_map, length_seq; exact Hi).
      rewrite nth_map_seq by exact Hi. reflexivity.
    + apply normalized_range.
      pose proof (Int16Array_samples _ _ Hview) as Hall.
      rewrite Forall_forall in Hall. apply Hall. apply nth_In. exact Hidx.
  - intros Hchannels Hframe Hrate.
    assert (Haccepts : createBuffer_accepts numChannels
                         (List.length dataInt16 / numChannels) rate = true).
    { apply createBuffer_accepts_iff. split; [exact Hchannels|].
      split; [|exact Hrate]. apply Nat.div_le_lower_bound; lia. }
    rewrite Haccepts. eexists. reflexivity.
Qed.

(** Two stereo frames at 24000 Hz: left samples -32768 and 1, right
    samples 32767 and -1. *)
Lemma decodeAudioData_normalizes_witness :
  Int16Array [x00; x80; xff; x7f; x01; x00; xff; xff]
    = Ok [-32768; 32767; 1; -1] /\
  (1 <= 2 <= 32)%nat /\ 8000 <= 24000 <= 96000 /\
  exists buffer,
    decodeAudioData [x00; x80; xff; x7f; x01; x00; xff; xff] 24000 2
      = Ok buffer /\
    numberOfChannels buffer = 2%nat /\
    length buffer = (List.length [-32768; 32767; 1; -1]%Z / 2)%nat.
Proof.
  assert (Hview : Int16Array [x00; x80; xff; x7f; x01; x00; xff; xff]
                  = Ok [-32768; 32767; 1; -1]) by reflexivity.
  assert (Hchannels : (1 <= 2 <= 32)%nat) by lia.
  assert (Hrate : 8000 <= 24000 <= 96000) by lia.
  destruct (decodeAudioData_normalizes
              [x00; x80; xff; x7f; x01; x00; xff; xff] 24000 2
              [-32768; 32767; 1; -1] Hview) as [Hvalues Hbuffer].
  destruct (Hbuffer Hchannels ltac:(simpl; lia) Hrate) as [buffer Hdecode].
  destruct (Hvalues buffer Hdecode) as (Hn & Hlen & _).
  split; [exact Hview|]. split; [exact Hchannels|]. split; [exact Hrate|].
  exists buffer. split; [exact Hdecode|]. split; [exact Hn | exact Hlen].
Defined.

End DecoderFacts.

(** ** The player *)

Section PlayerFacts.

Import Audio Player.

Variable scenes : list Scene.

Lemma same_view_refl s : same_view s s.
Proof. repeat split. Qed.

Lemma same_view_trans a b c : same_view a b -> same_view b c -> same_view a c.
Proof.
  unfold same_view. intros H1 H2.
  repeat match goal with H : _ /\ _ |- _ => destruct H end.
  repeat split; congruence.
Qed.

Lemma stop_view source s : same_view (stop source s) s.
Proof. repeat split. Qed.

Lemma playCaption_view text s : same_view (playCaption text s) s.
Proof.
  unfold playCaption.
  destruct (audioContextRef s); simpl; [|apply same_view_refl].
  destruct (activeSourceRef s); repeat split.
Qed.

Lemma narrate_view s : same_view (narrate scenes s) s.
Proof.
  unfold narrate. destruct (scene_at scenes (currentScene s)).
  - apply playCaption_view.
  - apply same_view_refl.
Qed.

Lemma narration_effect_view old new :
  same_view (narration_effect scenes old new) new.
Proof.
  unfold narration_effect.
  destruct ((currentScene old =? currentScene new)
            && Bool.eqb (isNarrating old) (isNarrating new));
    [apply same_view_refl|].
  assert (Hclean : same_view
            match activeSourceRef new with
            | Some source => stop source new
            | None => new
            end new).
  { destruct (activeSourceRef new);
      [apply stop_view | apply same_view_refl]. }
  destruct (isNarrating _); [|exact Hclean].
  eapply same_view_trans; [apply narrate_view | exact Hclean].
Qed.

(** A step shows the view its handler produced. *)
Lemma step_view s e : same_view (step scenes s e) (handle scenes e s).
Proof. apply narration_effect_view. Qed.

Lemma narration_effect_same_deps s : narration_effect scenes s s = s.
Proof.
  unfold narration_effect.
  rewrite Z.eqb_refl, Bool.eqb_reflx. reflexivity.
Qed.

Lemma run_app events1 events2 s :
  run scenes (events1 ++ events2) s = run scenes events2 (run scenes events1 s).
Proof. unfold run. apply fold_left_app. Qed.

Lemma run_cons e events s :
  run scenes (e :: events) s = run scenes events (step scenes s e).
Proof. reflexivity. Qed.

(** An invariant of the steps holds after every run. *)
Lemma run_invariant (Inv : PlayerState -> Prop) :
  (forall s e, Inv s -> Inv (step scenes s e)) ->
  forall events s, Inv s -> Inv (run scenes events s).
Proof.
  intros Hstep events.
  induction events as [|e events IH]; intros s Hs; [exact Hs|].
  rewrite run_cons. apply IH. apply Hstep. exact Hs.
Qed.

(** *** Progress and the clock *)

Lemma tick_increment_positive : (0 < tick_increment)%Q.
Proof. reflexivity. Qed.

(** *** The scene index *)

Lemma handleNext_index s :
  (1 <= List.length scenes)%nat -> index_in_range scenes s ->
  index_in_range scenes (handleNext scenes s).
Proof.
  unfold index_in_range, handleNext. intros Hlen Hs. simpl.
  destruct (Z.ltb_spec (currentScene s) (Z.of_nat (List.length scenes) - 1));
    destruct ((_ =? 0) && _); simpl; lia.
Qed.

Lemma handle_index s e :
  (1 <= List.length scenes)%nat -> from_progress_bar scenes e = true ->
  index_in_range scenes s -> index_in_range scenes (handle scenes e s).
Proof.
  intros Hlen He Hs.
  assert (Hzero : 0 <= 0 < Z.of_nat (List.length scenes)) by lia.
  destruct e; simpl; try exact Hs; try exact Hzero.
  - unfold jumpToScene. destruct (index =? currentScene s); [exact Hs|].
    unfold index_in_range. simpl. simpl in He.
    apply andb_prop in He. destruct He as [H0 H1].
    apply Z.leb_le in H0. apply Z.ltb_lt in H1. lia.
  - unfold toggleNarration. simpl.
    destruct (isNarrating s); simpl.
    + destruct (activeSourceRef s); exact Hs.
    + unfold index_in_range.
      destruct (narrate_view (set_isNarrating true (set_audioContextRef true s)))
        as (_ & Hc & _).
      rewrite Hc. exact Hs.
  - unfold tick.
    destruct (isPlaying s && negb (isHoveringChart s)); [|exact Hs].
    destruct (Qle_bool 100 (progress s + tick_increment)); [|exact Hs].
    apply (handleNext_index s Hlen Hs).
  - unfold elapse. destruct (ms <? 0); [exact Hs|].
    destruct (existsb _ _); exact Hs.
  - unfold settle. destruct (existsb _ _); [|exact Hs].
    destruct r; simpl; try exact Hs.
    destruct (decodeAudioData _ _ _); exact Hs.
Qed.

Lemma step_index s e :
  (1 <= List.length scenes)%nat -> from_progress_bar scenes e = true ->
  index_in_range scenes s -> index_in_range scenes (step scenes s e).
Proof.
  intros Hlen He Hs. unfold index_in_range.
  destruct (step_view s e) as (_ & Hc & _). rewrite Hc.
  apply handle_index; assumption.
Qed.

Lemma run_index events : forall s,
  (1 <= List.length scenes)%nat ->
  forallb (from_progress_bar scenes) events = true ->
  index_in_range scenes s -> index_in_range scenes (run scenes events s).
Proof.
  induction events as [|e events IH]; intros s Hlen Hev Hs; [exact Hs|].
  simpl in Hev. apply andb_prop in Hev. destruct Hev as [He Hev].
  rewrite run_cons. apply IH; try assumption.
  apply step_index; assumption.
Qed.

(** *** The clear-timers of the transitions *)

Lemma filter_none_due (t : Z) (l : list Z) :
  existsb (fun d => d <=? t) l = false ->
  filter (fun d => negb (d <=? t)) l = l.
Proof.
  induction l as [|d l IH]; simpl; intros H; [reflexivity|].
  apply orb_false_elim in H. destruct H as [Hd Hl].
  rewrite Hd. simpl. rewrite IH by exact Hl. reflexivity.
Qed.

Lemma handleNext_timers s :
  timers (handleNext scenes s) = timers s ++ [now s + 800] /\
  now (handleNext scenes s) = now s /\
  prevScene (handleNext scenes s) = Some (currentScene s).
Proof.
  unfold handleNext. simpl. destruct ((_ =? 0) && _); simpl; auto.
Qed.

Lemma timers_ok_schedule s s' :
  timers_ok s -> now s' = now s -> timers s' = timers s ++ [now s + 800] ->
  timers_ok s'.
Proof.
  intros [Hall _] Hnow Htimers. unfold timers_ok.
  rewrite Hnow, Htimers. split.
  - apply Forall_app. split; [exact Hall|].
    constructor; [lia | constructor].
  - intros _ Hnil. apply app_eq_nil in Hnil. destruct Hnil; discriminate.
Qed.

Lemma handle_timers_ok s e : timers_ok s -> timers_ok (handle scenes e s).
Proof.
  intros Hs.
  destruct e; simpl; try exact Hs.
  - unfold jumpToScene. destruct (index =? currentScene s); [exact Hs|].
    apply (timers_ok_schedule s); [exact Hs | reflexivity | reflexivity].
  - unfold toggleNarration. simpl.
    destruct (isNarrating s); simpl.
    + destruct (activeSourceRef s); exact Hs.
    + destruct (narrate_view (set_isNarrating true (set_audioContextRef true s)))
        as (_ & _ & Hp & _ & _ & _ & _ & Hn & Ht).
      unfold timers_ok. rewrite Hp, Hn, Ht. exact Hs.
  - unfold tick.
    destruct (isPlaying s && negb (isHoveringChart s)); [|exact Hs].
    destruct (Qle_bool 100 (progress s + tick_increment)); [|exact Hs].
    destruct (handleNext_timers s) as (Ht & Hn & _).
    apply (timers_ok_schedule s); [exact Hs | exact Hn | exact Ht].
  - unfold elapse. destruct (Z.ltb_spec ms 0) as [Hneg|Hpos]; [exact Hs|].
    destruct Hs as [Hall Hrec].
    assert (Hkept : Forall (fun d => now s + ms < d <= now s + ms + 800)
                      (filter (fun d => negb (d <=? now s + ms)) (timers s))).
    { rewrite Forall_forall in *. intros d Hd.
      apply filter_In in Hd. destruct Hd as [Hin Hlate].
      apply negb_true_iff, Z.leb_gt in Hlate.
      specialize (Hall d Hin). lia. }
    destruct (existsb _ _) eqn:Hdue; unfold timers_ok; simpl.
    + split; [exact Hkept | congruence].
    + split; [exact Hkept|].
      rewrite (filter_none_due _ _ Hdue). exact Hrec.
  - unfold settle. destruct (existsb _ _); [|exact Hs].
    destruct r; simpl; try exact Hs.
    destruct (decodeAudioData _ _ _); exact Hs.
Qed.

Lemma step_timers_ok s e : timers_ok s -> timers_ok (step scenes s e).
Proof.
  intros Hs. unfold timers_ok.
  destruct (step_view s e) as (_ & _ & Hp & _ & _ & _ & _ & Hn & Ht).
  rewrite Hp, Hn, Ht. apply handle_timers_ok. exact Hs.
Qed.

Lemma reachable_timers_ok events : timers_ok (run scenes events init).
Proof.
  apply run_invariant.
  - apply step_timers_ok.
  - split; [constructor | intros H; exfalso; apply H; reflexivity].
Qed.

(** Without a new transition no timer is added, and the clock moves by
    the time that passes. *)
Lemma quiet_step s e :
  begins_transition s e = false ->
  incl (timers (step scenes s e)) (timers s) /\
  now (step scenes s e) = now s + elapsed [e].
Proof.
  intros Hq.
  destruct (step_view s e) as (_ & _ & _ & _ & _ & _ & _ & Hn & Ht).
  rewrite Hn, Ht. clear Hn Ht.
  assert (Hsame : incl (timers s) (timers s) /\ now s = now s + 0)
    by (split; [apply incl_refl | lia]).
  destruct e; simpl; try exact Hsame.
  - unfold jumpToScene. simpl in Hq.
    apply negb_false_iff in Hq. rewrite Hq. exact Hsame.
  - unfold toggleNarration. simpl.
    destruct (isNarrating s); simpl.
    + destruct (activeSourceRef s); exact Hsame.
    + destruct (narrate_view (set_isNarrating true (set_audioContextRef true s)))
        as (_ & _ & _ & _ & _ & _ & _ & Hn & Ht).
      rewrite Hn, Ht. exact Hsame.
  - unfold tick. simpl in Hq. unfold advances in Hq.
    destruct (isPlaying s && negb (isHoveringChart s)); [|exact Hsame].
    simpl in Hq. rewrite Hq. exact Hsame.
  - unfold elapse. destruct (Z.ltb_spec ms 0) as [Hneg|Hpos].
    + split; [apply incl_refl | lia].
    + assert (Hsub : incl (filter (fun d => negb (d <=? now s + ms)) (timers s))
                          (timers s)) by apply incl_filter.
      destruct (existsb _ _); simpl; (split; [exact Hsub | lia]).
  - unfold settle. destruct (existsb _ _); [|exact Hsame].
    destruct r; simpl; try exact Hsame.
    destruct (decodeAudioData _ _ _); exact Hsame.
Qed.

Lemma quiet_run events : forall s,
  quiet scenes s events = true ->
  incl (timers (run scenes events s)) (timers s) /\
  now (run scenes events s) = now s + elapsed events.
Proof.
  induction events as [|e events IH]; intros s Hq.
  - simpl. split; [apply incl_refl | lia].
  - simpl in Hq. apply andb_prop in Hq. destruct Hq as [He Hrest].
    apply negb_true_iff in He.
    destruct (quiet_step s e He) as [Hincl Hnow].
    destruct (IH _ Hrest) as [Hincl' Hnow'].
    rewrite run_cons. split.
    + eapply incl_tran; eassumption.
    + rewrite Hnow', Hnow. destruct e; simpl; lia.
Qed.

(** Once 800 ms have passed without a new transition, no record is
    left. *)
Lemma record_cleared s events :
  timers_ok s -> quiet scenes s events = true -> 800 <= elapsed events ->
  prevScene (run scenes events s) = None.
Proof.
  intros Hs Hq Hlong.
  destruct (quiet_run events s Hq) as [Hincl Hnow].
  assert (Hend : timers_ok (run scenes events s)).
  { apply run_invariant; [apply step_timers_ok | exact Hs]. }
  destruct Hend as [Hall Hrec].
  destruct (prevScene (run scenes events s)) as [from|] eqn:Hprev;
    [|reflexivity].
  exfalso.
  destruct (timers (run scenes events s)) as [|d rest] eqn:Ht.
  - apply Hrec; [discriminate | reflexivity].
  - assert (Hd : In d (timers s)) by (apply Hincl; left; reflexivity).
    destruct Hs as [Hbound _]. rewrite Forall_forall in Hbound.
    specialize (Hbound d Hd).
    inversion Hall as [|? ? Hfirst _]; subst. lia.
Qed.

End PlayerFacts.

(** ** The controller's guarantees *)

Section Guarantees.

Import Audio Player.

Lemma tick_advancing scenes s :
  advances s = true -> tick scenes s = set_progress 0%Q (handleNext scenes s).
Proof.
  unfold advances, tick. intros H.
  apply andb_prop in H. destruct H as [Hrun Hreach].
  rewrite Hrun, Hreach. reflexivity.
Qed.

Lemma tick_accumulating scenes s :
  isPlaying s = true -> isHoveringChart s = false ->
  Qle_bool 100 (progress s + tick_increment) = false ->
  tick scenes s = set_progress (progress s + tick_increment)%Q s.
Proof.
  unfold tick. intros Hp Hh Hreach. rewrite Hp, Hh, Hreach. reflexivity.
Qed.

Lemma handleNext_wraps scenes s :
  currentScene s = Z.of_nat (List.length scenes) - 1 ->
  currentScene (handleNext scenes s) = 0 /\
  isPlaying (handleNext scenes s) = false.
Proof.
  intros Hlast. unfold handleNext. simpl.
  rewrite Hlast, Z.ltb_irrefl, !Z.eqb_refl. simpl. split; reflexivity.
Qed.

(** C6.  An autoplay advance that fires on the last scene wraps to scene 0
    and stops autoplay: after the advancing tick [currentScene] is 0,
    [isPlaying] is false and [progress] is 0. *)
Theorem advance_from_last_scene_wraps scenes s :
  currentScene s = Z.of_nat (List.length scenes) - 1 ->
  advances s = true ->
  handle scenes Tick s = set_progress 0%Q (handleNext scenes s) /\
  currentScene (step scenes s Tick) = 0 /\
  isPlaying (step scenes s Tick) = false /\
  progress (step scenes s Tick) = 0%Q.
Proof.
  intros Hlast Hadv.
  destruct (step_view scenes s Tick) as (Hp & Hc & _ & Hg & _).
  rewrite Hp, Hc, Hg. simpl. rewrite (tick_advancing scenes s Hadv). simpl.
  destruct (handleNext_wraps scenes s Hlast) as [Hzero Hstop].
  repeat split; assumption.
Qed.

(** Seven scenes, autoplay on scene 6, progress 119 ticks into the
    scene. *)
Lemma advance_from_last_scene_wraps_witness :
  let s := set_progress (595 # 6)
             (run presentation [JumpTo 6; TogglePlay] init) in
  currentScene s = Z.of_nat (List.length presentation) - 1 /\
  advances s = true /\
  currentScene (step presentation s Tick) = 0 /\
  isPlaying (step presentation s Tick) = false.
Proof.
  intros s.
  assert (Hlast : currentScene s = Z.of_nat (List.length presentation) - 1)
    by (vm_compute; reflexivity).
  assert (Hadv : advances s = true) by (vm_compute; reflexivity).
  destruct (advance_from_last_scene_wraps presentation s Hlast Hadv)
    as (_ & Hzero & Hstop & _).
  split; [exact Hlast|]. split; [exact Hadv|].
  split; [exact Hzero | exact Hstop].
Defined.

Section ClockFacts.

Local Open Scope nat_scope.

Lemma after_period : Clock.after 121 = 0%float.
Proof. vm_compute. reflexivity. Qed.

Lemma after_add_period n : Clock.after (n + 121) = Clock.after n.
Proof.
  induction n as [|n IH].
  - exact after_period.
  - change (Clock.after (S n + 121))
      with (fst (Clock.updater (Clock.after (n + 121)))).
    rewrite IH. reflexivity.
Qed.

Lemma after_mod n : Clock.after n = Clock.after (n mod 121).
Proof.
  assert (H : forall q r, Clock.after (r + q * 121) = Clock.after r).
  { induction q as [|q IH]; intros r.
    - rewrite Nat.add_0_r. reflexivity.
    - replace (r + S q * 121) with ((r + q * 121) + 121) by lia.
      rewrite after_add_period. apply IH. }
  rewrite (Nat.div_mod_eq n 121) at 1.
  rewrite Nat.add_comm, Nat.mul_comm. apply H.
Qed.

(** C8, as the claim states it, fails: the additions are binary64
    additions.  120 ticks of exactly 100 * 100 / 12000 add up to 100, so
    the 120th firing would advance; the program holds 99.99999999999987
    after 120 firings, the 120th firing does not call [handleNext], the
    121st does. *)
Lemma tick_sum_is_rounded :
  (inject_Z 120 * (100 * 100 / Player.SCENE_DURATION) == 100)%Q /\
  Clock.after 120 = 0x1.8fffffffffff7p+6%float /\
  PrimFloat.ltb (Clock.after 120) 100 = true /\
  snd (Clock.updater (Clock.after 119)) = false /\
  snd (Clock.updater (Clock.after 120)) = true.
Proof.
  split; [reflexivity|]. vm_compute. repeat split.
Qed.

(** C8, amended.  A firing of the 100 ms interval adds the binary64
    number 100 / (12000 / 100), which is 0.8333333333333334, to
    [progress], and the sum is rounded to binary64.  When the sum reaches
    or exceeds 100 the firing calls [handleNext] and leaves [progress] at
    0 instead.  From progress 0 this keeps [progress] at least 0 and
    below 100 after every firing; every firing that does not advance
    raises [progress], and the firing that advances is the 121st of a
    scene. *)
Theorem tick_progress_binary64 (n : nat) :
  Clock.increment = 0x1.aaaaaaaaaaaabp-1%float /\
  PrimFloat.leb 0 (Clock.after n) = true /\
  PrimFloat.ltb (Clock.after n) 100 = true /\
  (n mod 121 <> 120 ->
   Clock.updater (Clock.after n)
     = (PrimFloat.add (Clock.after n) Clock.increment, false) /\
   PrimFloat.ltb (Clock.after n)
     (PrimFloat.add (Clock.after n) Clock.increment) = true /\
   PrimFloat.ltb (PrimFloat.add (Clock.after n) Clock.increment) 100
     = true) /\
  (n mod 121 = 120 ->
   Clock.updater (Clock.after n) = (0%float, true) /\
   PrimFloat.leb 100 (PrimFloat.add (Clock.after n) Clock.increment)
     = true).
Proof.
  split; [vm_compute; reflexivity|].
  rewrite (after_mod n).
  assert (Hk : n mod 121 < 121) by (apply Nat.mod_upper_bound; lia).
  generalize dependent (n mod 121). intros k Hk.
  do 121 (destruct k as [|k];
          [split; [vm_compute; reflexivity|];
           split; [vm_compute; reflexivity|];
           split; intros Hcase;
           first [ exfalso; lia
                 | vm_compute; repeat split; reflexivity ]
          |]).
  exfalso. lia.
Qed.

(** The first firing of a scene and the firing that ends it. *)
Lemma tick_progress_binary64_witness :
  0 mod 121 <> 120 /\ 120 mod 121 = 120 /\
  Clock.updater (Clock.after 0)
    = (PrimFloat.add (Clock.after 0) Clock.increment, false) /\
  Clock.updater (Clock.after 120) = (0%float, true).
Proof.
  assert (Hfirst : 0 mod 121 <> 120) by (vm_compute; discriminate).
  assert (Hlast : 120 mod 121 = 120) by reflexivity.
  destruct (tick_progress_binary64 0) as (_ & _ & _ & Hadd & _).
  destruct (tick_progress_binary64 120) as (_ & _ & _ & _ & Hadvance).
  split; [exact Hfirst|]. split; [exact Hlast|].
  split; [exact (proj1 (Hadd Hfirst)) | exact (proj1 (Hadvance Hlast))].
Defined.

End ClockFacts.

(** C2, as the claim states it, fails: [jumpToScene] takes any number, and
    a jump to index 7 of the seven-scene catalog leaves [currentScene]
    outside the catalog. *)
Lemma jump_leaves_catalog :
  let s := run presentation [JumpTo 7] init in
  currentScene s = 7 /\
  ~ (0 <= currentScene s < Z.of_nat (List.length presentation)).
Proof.
  split; [reflexivity|]. vm_compute. intros [_ H]. discriminate H.
Qed.

(** C2, amended.  For a catalog of at least one scene, after any sequence
    of events in which every jump targets an index of the catalog (the
    progress bar has one segment per scene and issues no other jump),
    [currentScene] points into the catalog. *)
Theorem currentScene_in_range scenes events :
  (1 <= List.length scenes)%nat ->
  forallb (from_progress_bar scenes) events = true ->
  0 <= currentScene (run scenes events init)
    < Z.of_nat (List.length scenes).
Proof.
  intros Hlen Hev.
  apply (run_index scenes events init Hlen Hev).
  unfold index_in_range. simpl. lia.
Qed.

Lemma currentScene_in_range_witness :
  (1 <= List.length presentation)%nat /\
  0 <= currentScene
         (run presentation
            [TogglePlay; JumpTo 6; Tick; ToggleNarration; MouseEnter;
             MouseLeave; Elapse 900; JumpTo 3; Reset; Replay]
            init)
    < 7.
Proof.
  split; [simpl; lia|].
  apply (currentScene_in_range presentation); [simpl; lia | reflexivity].
Defined.

(** C3, as the claim states it, fails: no range check guards
    [jumpToScene]; a jump to index 7 of the seven-scene catalog sets
    [currentScene] and [prevScene] and schedules a clear-timer. *)
Lemma jump_out_of_range_mutates :
  let s := step presentation init (JumpTo 7) in
  ~ (0 <= 7 < Z.of_nat (List.length presentation)) /\
  currentScene s = 7 /\ prevScene s = Some 0 /\ timers s = [800] /\
  s <> init.
Proof.
  repeat split; try reflexivity.
  - vm_compute. intros [_ H]. discriminate H.
  - discriminate.
Qed.

(** C3, amended.  The only jump that is refused is the jump to the current
    scene: it leaves the whole state as it is.  A jump to any other
    index, inside the catalog or not, sets [currentScene] to the index,
    [prevScene] to the scene left, [progress] to 0, and schedules a
    clear-timer; [isPlaying] and [isNarrating] keep their values. *)
Theorem jumpToScene_no_range_check scenes s index :
  (index = currentScene s -> step scenes s (JumpTo index) = s) /\
  (index <> currentScene s ->
     let s' := step scenes s (JumpTo index) in
     currentScene s' = index /\
     prevScene s' = Some (currentScene s) /\
     progress s' = 0%Q /\
     timers s' = timers s ++ [now s + 800] /\
     isPlaying s' = isPlaying s /\
     isNarrating s' = isNarrating s).
Proof.
  split.
  - intros Heq. unfold step. simpl. unfold jumpToScene.
    rewrite Heq, Z.eqb_refl. apply narration_effect_same_deps.
  - intros Hne s'.
    destruct (step_view scenes s (JumpTo index))
      as (Hp & Hc & Hv & Hg & _ & _ & Hn & _ & Ht).
    unfold s'. rewrite Hp, Hc, Hv, Hg, Hn, Ht. simpl. unfold jumpToScene.
    apply Z.eqb_neq in Hne. rewrite Hne. simpl. repeat split.
Qed.

Lemma jumpToScene_no_range_check_witness :
  step presentation init (JumpTo 0) = init /\
  currentScene (step presentation init (JumpTo (-1))) = -1 /\
  progress (step presentation init (JumpTo (-1))) = 0%Q.
Proof.
  destruct (jumpToScene_no_range_check presentation init 0) as [Hsame _].
  destruct (jumpToScene_no_range_check presentation init (-1)) as [_ Hjump].
  split; [apply Hsame; reflexivity|].
  destruct Hjump as (Hc & _ & Hg & _); [discriminate|].
  split; assumption.
Defined.

(** C4, as the claim states it, fails: a clear-timer is never cancelled.
    A jump at time 0 and a second jump at time 500 leave both timers
    pending; the first one fires at time 800 and clears the record of the
    second transition, 300 ms after it began. *)
Lemma stale_timer_clears_new_record :
  let s := run presentation [JumpTo 1; Elapse 500; JumpTo 2] init in
  now s = 500 /\ prevScene s = Some 1 /\ timers s = [800; 1300] /\
  let s' := step presentation s (Elapse 300) in
  now s' = 800 /\ prevScene s' = None /\ timers s' = [1300].
Proof. vm_compute. repeat split. Qed.

(** C4, amended.  A transition that begins at time T, by a jump or by an
    advancing tick, puts the scene left into [prevScene] at once, in place
    of any earlier record, and schedules a clear at T + 800 next to the
    timers already pending.  After it, once 800 ms have passed without a
    further transition, the record is absent. *)
Theorem transition_record_lifetime scenes events e :
  let s := run scenes events init in
  begins_transition s e = true ->
  prevScene (step scenes s e) = Some (currentScene s) /\
  timers (step scenes s e) = timers s ++ [now s + 800] /\
  forall later,
    quiet scenes (step scenes s e) later = true ->
    800 <= elapsed later ->
    prevScene (run scenes later (step scenes s e)) = None.
Proof.
  intros s Hbegin.
  destruct (step_view scenes s e) as (_ & _ & Hv & _ & _ & _ & _ & _ & Ht).
  rewrite Hv, Ht.
  split; [|split].
  - destruct e; simpl in Hbegin; try discriminate; simpl.
    + unfold jumpToScene. apply negb_true_iff in Hbegin.
      rewrite Hbegin. reflexivity.
    + rewrite (tick_advancing scenes s Hbegin). simpl.
      apply (handleNext_timers scenes s).
  - destruct e; simpl in Hbegin; try discriminate; simpl.
    + unfold jumpToScene. apply negb_true_iff in Hbegin.
      rewrite Hbegin. reflexivity.
    + rewrite (tick_advancing scenes s Hbegin). simpl.
      apply (handleNext_timers scenes s).
  - intros later Hquiet Hlong.
    apply record_cleared; try assumption.
    apply step_timers_ok. apply reachable_timers_ok.
Qed.

(** A jump at time 500 whose record is gone at time 1300. *)
Lemma transition_record_lifetime_witness :
  let s := run presentation [JumpTo 1; Elapse 500] init in
  begins_transition s (JumpTo 2) = true /\
  prevScene (step presentation s (JumpTo 2)) = Some 1 /\
  prevScene
    (run presentation [TogglePlay; Elapse 450; Tick; Elapse 350]
       (step presentation s (JumpTo 2))) = None.
Proof.
  intros s.
  assert (Hbegin : begins_transition s (JumpTo 2) = true) by reflexivity.
  destruct (transition_record_lifetime presentation
              [JumpTo 1; Elapse 500] (JumpTo 2) Hbegin)
    as (Hrec & _ & Hclear).
  split; [exact Hbegin|]. split; [exact Hrec|].
  apply Hclear; [reflexivity | simpl; lia].
Defined.

(** C5, as the claim states it, fails: [reset] touches neither the
    transition nor the narration.  A reset during a transition into scene
    0 keeps [prevScene]; a reset on scene 0 keeps the narration source
    sounding and narration on; a reset on scene 0 keeps the requests that
    are in flight. *)
Lemma reset_keeps_transition_and_narration :
  (let s := run presentation [JumpTo 1; Elapse 100; JumpTo 0; Elapse 100]
              init in
   prevScene s = Some 1 /\ prevScene (step presentation s Reset) = Some 1) /\
  (let s := run presentation
              [ToggleNarration; Elapse 1500;
               Settle 0 (InlineData [x00; x80; xff; x7f]); Settle 1 NoAudio]
              init in
   sounding s = [2%nat] /\
   sounding (step presentation s Reset) = [2%nat] /\
   isNarrating (step presentation s Reset) = true) /\
  (let s := run presentation [ToggleNarration] init in
   requests (step presentation s Reset) = requests s /\ requests s <> []).
Proof.
  vm_compute. repeat split; discriminate.
Qed.

Lemma stop_silences source s : ~ In source (sounding (stop source s)).
Proof.
  unfold stop. simpl. intros Hin.
  apply filter_In in Hin. destruct Hin as [_ Hne].
  rewrite Nat.eqb_refl in Hne. discriminate.
Qed.

Lemma playCaption_sounding text s :
  incl (sounding (playCaption text s)) (sounding s).
Proof.
  unfold playCaption. destruct (audioContextRef s); simpl;
    [|apply incl_refl].
  destruct (activeSourceRef s); simpl;
    [apply incl_filter | apply incl_refl].
Qed.

Lemma narrate_sounding scenes s :
  incl (sounding (narrate scenes s)) (sounding s).
Proof.
  unfold narrate. destruct (scene_at scenes (currentScene s));
    [apply playCaption_sounding | apply incl_refl].
Qed.

(** C5, amended.  [reset] stops playback and returns to scene 0 with
    progress 0.  It leaves [prevScene], the pending clear-timers and
    [isNarrating] as they are.  The narration is reached through the
    scene-change effect only: from another scene the source held in
    [activeSourceRef] is stopped, on scene 0 the sounding sources stay as
    they are. *)
Theorem reset_postcondition scenes s :
  let s' := step scenes s Reset in
  isPlaying s' = false /\ currentScene s' = 0 /\ progress s' = 0%Q /\
  prevScene s' = prevScene s /\ timers s' = timers s /\
  isNarrating s' = isNarrating s /\
  (currentScene s = 0 -> sounding s' = sounding s) /\
  (currentScene s <> 0 ->
   forall source, activeSourceRef s = Some source ->
                  ~ In source (sounding s')).
Proof.
  intros s'.
  destruct (step_view scenes s Reset)
    as (Hp & Hc & Hv & Hg & _ & _ & Hn & _ & Ht).
  unfold s'. rewrite Hp, Hc, Hv, Hg, Hn, Ht. simpl.
  repeat split.
  - intros Hzero. unfold step, narration_effect. simpl.
    rewrite Hzero, Bool.eqb_reflx. reflexivity.
  - intros Hother source Hactive.
    unfold step, narration_effect. simpl.
    apply Z.eqb_neq in Hother. rewrite Hother. simpl.
    rewrite Hactive. simpl.
    destruct (isNarrating s).
    + intros Hin. apply narrate_sounding in Hin.
      revert Hin. apply stop_silences.
    + apply stop_silences.
Qed.

Lemma reset_postcondition_witness :
  let s := run presentation
             [ToggleNarration; Settle 0 (InlineData [x00; x80; xff; x7f]);
              Settle 1 NoAudio; TogglePlay; Tick]
             init in
  currentScene s = 0 /\
  isPlaying (step presentation s Reset) = false /\
  progress (step presentation s Reset) = 0%Q /\
  sounding (step presentation s Reset) = sounding s.
Proof.
  intros s.
  destruct (reset_postcondition presentation s)
    as (Hp & _ & Hg & _ & _ & _ & Hkeep & _).
  split; [reflexivity|]. split; [exact Hp|]. split; [exact Hg|].
  apply Hkeep. reflexivity.
Defined.

(** C7, as the claim states it, fails: [reset] on scene 0 puts a non-zero
    progress back to 0 while [currentScene] stays 0. *)
Lemma reset_zeroes_progress_in_place :
  let s := run presentation [TogglePlay; Tick] init in
  let s' := step presentation s Reset in
  currentScene s = 0 /\ ~ (progress s == 0)%Q /\
  currentScene s' = currentScene s /\ progress s' = 0%Q.
Proof.
  vm_compute. repeat split. intros H. discriminate H.
Qed.

Lemma handle_changes_index_zeroes_progress scenes s e :
  e <> Replay ->
  currentScene (handle scenes e s) = currentScene s \/
  progress (handle scenes e s) = 0%Q.
Proof.
  intros Hne.
  destruct e; simpl; try (left; reflexivity); try (right; reflexivity).
  - unfold jumpToScene. destruct (index =? currentScene s);
      [left | right]; reflexivity.
  - left. unfold toggleNarration. simpl.
    destruct (isNarrating s); simpl.
    + destruct (activeSourceRef s); reflexivity.
    + apply (narrate_view scenes
               (set_isNarrating true (set_audioContextRef true s))).
  - congruence.
  - unfold tick.
    destruct (isPlaying s && negb (isHoveringChart s)); [|left; reflexivity].
    destruct (Qle_bool 100 (progress s + tick_increment));
      [right | left]; reflexivity.
  - left. unfold elapse. destruct (ms <? 0); [reflexivity|].
    destruct (existsb _ _); reflexivity.
  - left. unfold settle. destruct (existsb _ _); [|reflexivity].
    destruct r; simpl; try reflexivity.
    destruct (decodeAudioData _ _ _); reflexivity.
Qed.

Lemma handle_progress_monotone scenes s e :
  currentScene (handle scenes e s) = currentScene s ->
  e <> Reset ->
  ~ (e = Tick /\ (List.length scenes <= 1)%nat) ->
  (progress s <= progress (handle scenes e s))%Q.
Proof.
  intros Hsame Hreset Hsingle.
  destruct e; simpl in *; try apply Qle_refl.
  - congruence.
  - unfold jumpToScene in *.
    destruct (Z.eqb_spec index (currentScene s)); [apply Qle_refl|].
    simpl in Hsame. congruence.
  - unfold toggleNarration. simpl.
    destruct (isNarrating s); simpl.
    + destruct (activeSourceRef s); apply Qle_refl.
    + destruct (narrate_view scenes
                  (set_isNarrating true (set_audioContextRef true s)))
        as (_ & _ & _ & Hg & _).
      rewrite Hg. apply Qle_refl.
  - unfold tick in *.
    destruct (isPlaying s && negb (isHoveringChart s)); [|apply Qle_refl].
    destruct (Qle_bool 100 (progress s + tick_increment)); simpl.
    + exfalso. apply Hsingle. split; [reflexivity|].
      unfold handleNext in Hsame. simpl in Hsame.
      destruct (Z.ltb_spec (currentScene s)
                  (Z.of_nat (List.length scenes) - 1));
        destruct ((_ =? 0) && _); simpl in Hsame; lia.
    + apply Qle_trans with (progress s + 0)%Q.
      * rewrite Qplus_0_r. apply Qle_refl.
      * apply Qplus_le_r. apply Qlt_le_weak, tick_increment_positive.
  - unfold elapse. destruct (ms <? 0); [apply Qle_refl|].
    destruct (existsb _ _); apply Qle_refl.
  - unfold settle. destruct (existsb _ _); [|apply Qle_refl].
    destruct r; simpl; try apply Qle_refl.
    destruct (decodeAudioData _ _ _); apply Qle_refl.
Qed.

(** C7, amended.  Every jump, advance or reset that changes
    [currentScene] sets [progress] to 0 in the same step (so does every
    other event but the replay button of the last scene, which this
    statement leaves aside).  A step that keeps [currentScene] never
    lowers [progress], with two exceptions: [reset], which also zeroes the
    progress of scene 0, and the advance of a one-scene catalog, which
    wraps from scene 0 to scene 0.  A tick that does not advance raises
    [progress]. *)
Theorem progress_resets_with_index scenes s e :
  (e <> Replay ->
   currentScene (step scenes s e) <> currentScene s ->
   progress (step scenes s e) = 0%Q) /\
  (currentScene (step scenes s e) = currentScene s ->
   e <> Reset ->
   ~ (e = Tick /\ (List.length scenes <= 1)%nat) ->
   (progress s <= progress (step scenes s e))%Q) /\
  (isPlaying s = true -> isHoveringChart s = false ->
   advances s = false ->
   currentScene (step scenes s Tick) = currentScene s /\
   (progress s < progress (step scenes s Tick))%Q).
Proof.
  destruct (step_view scenes s e) as (_ & Hc & _ & Hg & _).
  rewrite Hc, Hg. split; [|split].
  - intros Hne Hchanged.
    destruct (handle_changes_index_zeroes_progress scenes s e Hne)
      as [Hsame|Hzero]; [contradiction | exact Hzero].
  - apply handle_progress_monotone.
  - intros Hp Hh Hadv.
    destruct (step_view scenes s Tick) as (_ & Hc' & _ & Hg' & _).
    rewrite Hc', Hg'. simpl.
    unfold advances in Hadv. rewrite Hp, Hh in Hadv. simpl in Hadv.
    rewrite (tick_accumulating scenes s Hp Hh Hadv). simpl.
    split; [reflexivity|].
    apply Qle_lt_trans with (progress s + 0)%Q.
    + rewrite Qplus_0_r. apply Qle_refl.
    + apply Qplus_lt_r. apply tick_increment_positive.
Qed.

(** A jump away from a scene with progress 100/120, and a further tick on
    that scene. *)
Lemma progress_resets_with_index_witness :
  let s := run presentation [TogglePlay; Tick] init in
  JumpTo 3 <> Replay /\
  currentScene (step presentation s (JumpTo 3)) <> currentScene s /\
  progress (step presentation s (JumpTo 3)) = 0%Q /\
  (progress s < progress (step presentation s Tick))%Q.
Proof.
  intros s.
  assert (Hne : JumpTo 3 <> Replay) by discriminate.
  assert (Hchanged : currentScene (step presentation s (JumpTo 3))
                     <> currentScene s) by discriminate.
  destruct (progress_resets_with_index presentation s (JumpTo 3))
    as (Hzero & _ & Hrise).
  split; [exact Hne|]. split; [exact Hchanged|].
  split; [exact (Hzero Hne Hchanged)|].
  apply Hrise; reflexivity.
Defined.

Lemma settle_failed request r s :
  In request (map fst (requests s)) ->
  narration_fails r = true ->
  settle request r s =
  set_isNarrating false
    (set_requests
       (filter (fun p => negb (fst p =? request)%nat) (requests s)) s).
Proof.
  intros Hin Hfail. unfold settle.
  assert (Hpending : existsb (fun p => (fst p =? request)%nat) (requests s)
                     = true).
  { apply existsb_exists. apply in_map_iff in Hin.
    destruct Hin as [p [Hp Hin]]. exists p. split; [exact Hin|].
    rewrite Hp. apply Nat.eqb_refl. }
  rewrite Hpending.
  destruct r; simpl in Hfail; try discriminate; [reflexivity|].
  destruct (decodeAudioData audioBytes 24000 1); [discriminate|reflexivity].
Qed.

Lemma request_settled request (pending : list (nat * string)) :
  ~ In request
      (map fst (filter (fun p => negb (fst p =? request)%nat) pending)).
Proof.
  intros Hin. apply in_map_iff in Hin. destruct Hin as [p [Hp Hin]].
  apply filter_In in Hin. destruct Hin as [_ Hne].
  rewrite Hp, Nat.eqb_refl in Hne. discriminate.
Qed.

(** C9.  When a pending synthesis request fails, or its payload does not
    decode, the request is over without a source having been started and
    [isNarrating] is false afterwards; [isPlaying], [currentScene] and
    [progress] are as before, so the presentation goes on. *)
Theorem narration_failure_disables scenes s request r :
  In request (map fst (requests s)) ->
  narration_fails r = true ->
  let s' := step scenes s (Settle request r) in
  isNarrating s' = false /\
  isPlaying s' = isPlaying s /\
  currentScene s' = currentScene s /\
  progress s' = progress s /\
  ~ In request (map fst (requests s')) /\
  incl (sounding s') (sounding s).
Proof.
  intros Hin Hfail s'.
  destruct (step_view scenes s (Settle request r))
    as (Hp & Hc & _ & Hg & _ & _ & Hn & _).
  unfold s'. rewrite Hp, Hc, Hg, Hn. simpl.
  rewrite (settle_failed request r s Hin Hfail). simpl.
  repeat split.
  - unfold step. simpl. rewrite (settle_failed request r s Hin Hfail).
    unfold narration_effect. simpl.
    destruct ((currentScene s =? currentScene s)
              && Bool.eqb (isNarrating s) false); simpl.
    + apply request_settled.
    + destruct (activeSourceRef s); simpl; apply request_settled.
  - unfold step. simpl. rewrite (settle_failed request r s Hin Hfail).
    unfold narration_effect. simpl.
    destruct ((currentScene s =? currentScene s)
              && Bool.eqb (isNarrating s) false); simpl.
    + apply incl_refl.
    + destruct (activeSourceRef s); simpl;
        [apply incl_filter | apply incl_refl].
Qed.

(** Narration is switched on on scene 2 and the service rejects the
    request; a second request ends on a payload of odd length. *)
Lemma narration_failure_disables_witness :
  let s := run presentation [JumpTo 2; TogglePlay; Tick; ToggleNarration]
             init in
  In 0%nat (map fst (requests s)) /\
  narration_fails Failure = true /\
  narration_fails (InlineData [x00; x80; xff]) = true /\
  isNarrating s = true /\ currentScene s = 2 /\
  isNarrating (step presentation s (Settle 0 Failure)) = false /\
  currentScene (step presentation s (Settle 0 Failure)) = currentScene s /\
  isNarrating
    (step presentation s (Settle 1 (InlineData [x00; x80; xff]))) = false.
Proof.
  intros s.
  assert (Hin0 : In 0%nat (map fst (requests s)))
    by (vm_compute; left; reflexivity).
  assert (Hin1 : In 1%nat (map fst (requests s)))
    by (vm_compute; right; left; reflexivity).
  assert (Hf0 : narration_fails Failure = true) by reflexivity.
  assert (Hf1 : narration_fails (InlineData [x00; x80; xff]) = true)
    by (vm_compute; reflexivity).
  destruct (narration_failure_disables presentation s 0 Failure Hin0 Hf0)
    as (Hoff & _ & Hscene & _).
  destruct (narration_failure_disables presentation s 1
              (InlineData [x00; x80; xff]) Hin1 Hf1)
    as (Hoff' & _).
  split; [exact Hin0|]. split; [exact Hf0|]. split; [exact Hf1|].
  split; [vm_compute; reflexivity|]. split; [vm_compute; reflexivity|].
  split; [exact Hoff|]. split; [exact Hscene|]. exact Hoff'.
Defined.

(** C1.  The code breaks the claim.  One click on the narration button
    sends two synthesis requests, one from [toggleNarration] itself and
    one from the narration effect, and nothing cancels a request in
    flight: [playCaption] only stops the source already stored in
    [activeSourceRef].  When both requests are answered, two sources
    sound together. *)
Theorem toggle_starts_two_sessions :
  let s1 := run presentation [ToggleNarration] init in
  let s2 := run presentation
              [Settle 0 (InlineData [x00; x80; xff; x7f]);
               Settle 1 (InlineData [x00; x80; xff; x7f])]
              s1 in
  map fst (requests s1) = [0%nat; 1%nat] /\
  sounding s1 = [] /\
  sounding s2 = [2%nat; 3%nat] /\
  activeSourceRef s2 = Some 3%nat /\
  (List.length (requests s2) + List.length (sounding s2) > 1)%nat.
Proof.
  vm_compute. repeat split. lia.
Qed.

End Guarantees.

(** ** Further behaviour of the player *)

Section PlayerBehaviour.

Import Audio Player.

Variable scenes : list Scene.

Lemma narration_effect_idle old new :
  currentScene old = currentScene new ->
  isNarrating old = isNarrating new ->
  narration_effect scenes old new = new.
Proof.
  intros Hc Hn. unfold narration_effect.
  rewrite Hc, Hn, Z.eqb_refl, Bool.eqb_reflx. reflexivity.
Qed.

Lemma togglePlay_twice s : togglePlay (togglePlay s) = s.
Proof. destruct s. unfold togglePlay. simpl. rewrite negb_involutive. reflexivity. Qed.

(** X1.  Play followed by pause, or pause followed by play, gives back the
    state the player was in: index, progress, transition, timers and
    narration are untouched by the pair. *)
Theorem play_pause_round_trip s :
  step scenes (step scenes s TogglePlay) TogglePlay = s.
Proof.
  unfold step. simpl.
  rewrite (narration_effect_idle s (togglePlay s)) by reflexivity.
  rewrite narration_effect_idle by reflexivity.
  apply togglePlay_twice.
Qed.

Lemma tick_without_interval s :
  isPlaying s && negb (isHoveringChart s) = false ->
  step scenes s Tick = s.
Proof.
  intros Hidle. unfold step. simpl. unfold tick. rewrite Hidle.
  apply narration_effect_same_deps.
Qed.

Lemma ticks_without_interval s k :
  isPlaying s && negb (isHoveringChart s) = false ->
  run scenes (repeat Tick k) s = s.
Proof.
  intros Hidle. induction k as [|k IH]; [reflexivity|].
  simpl. rewrite (tick_without_interval s Hidle). exact IH.
Qed.

Lemma step_elapse s ms : step scenes s (Elapse ms) = elapse ms s.
Proof.
  unfold step. simpl. apply narration_effect_idle; unfold elapse;
    destruct (ms <? 0); try reflexivity;
    destruct (existsb (fun d => d <=? now s + ms) (timers s)); reflexivity.
Qed.

Lemma elapse_hovering ms s :
  isHoveringChart (elapse ms s) = isHoveringChart s.
Proof.
  unfold elapse. destruct (ms <? 0); [reflexivity|].
  destruct (existsb (fun d => d <=? now s + ms) (timers s)); reflexivity.
Qed.

Lemma elapse_while_hovering ms s :
  isHoveringChart s = false ->
  set_isHoveringChart false (elapse ms (set_isHoveringChart true s))
  = elapse ms s.
Proof.
  intros Hout. destruct s. simpl in Hout. subst. unfold elapse. simpl.
  destruct (ms <? 0); [reflexivity|].
  destruct (existsb _ _); reflexivity.
Qed.

Lemma elapse_keeps ms s :
  progress (elapse ms s) = progress s /\
  currentScene (elapse ms s) = currentScene s /\
  isPlaying (elapse ms s) = isPlaying s /\
  isNarrating (elapse ms s) = isNarrating s /\
  sounding (elapse ms s) = sounding s /\
  requests (elapse ms s) = requests s.
Proof.
  unfold elapse. destruct (ms <? 0); [repeat split|].
  destruct (existsb (fun d => d <=? now s + ms) (timers s)); repeat split.
Qed.

(** X2.  Hovering a chart suspends the clock and nothing else.  While the
    pointer is over the chart the interval does not exist, so its period
    changes nothing however often it passes; the time that passes acts
    on the clear-timers of the transitions as it does without a hover.
    When the pointer leaves, the player is in the state that the passing
    of the time alone produces: progress is the held value, and the
    scene, the play state and the narration are those from before the
    hover. *)
Theorem hover_holds_progress s k ms k' :
  isHoveringChart s = false ->
  let s' := run scenes
              (MouseEnter :: repeat Tick k
               ++ Elapse ms :: repeat Tick k' ++ [MouseLeave]) s in
  s' = step scenes s (Elapse ms) /\
  progress s' = progress s /\ currentScene s' = currentScene s /\
  isPlaying s' = isPlaying s /\ isNarrating s' = isNarrating s /\
  sounding s' = sounding s /\ requests s' = requests s.
Proof.
  intros Hout s'.
  assert (Hstate : s' = step scenes s (Elapse ms)).
  { unfold s'. rewrite run_cons, run_app.
    assert (Hin : step scenes s MouseEnter = set_isHoveringChart true s).
    { unfold step. simpl. apply narration_effect_idle; reflexivity. }
    rewrite Hin.
    rewrite ticks_without_interval by (simpl; apply andb_false_r).
    rewrite run_cons, run_app, !step_elapse.
    rewrite ticks_without_interval
      by (rewrite elapse_hovering; simpl; apply andb_false_r).
    simpl. unfold step. simpl.
    rewrite narration_effect_idle by reflexivity.
    apply elapse_while_hovering. exact Hout. }
  split; [exact Hstate|].
  rewrite Hstate, step_elapse. apply elapse_keeps.
Qed.

Lemma reset_fixpoint s :
  isPlaying s = false -> currentScene s = 0 -> progress s = 0%Q ->
  reset s = s.
Proof.
  intros Hp Hc Hg. destruct s. simpl in *. subst. reflexivity.
Qed.

(** X3.  Reset is idempotent: a second reset changes nothing, whatever the
    state of the narration. *)
Theorem reset_idempotent s :
  step scenes (step scenes s Reset) Reset = step scenes s Reset.
Proof.
  destruct (step_view scenes s Reset) as (Hp & Hc & _ & Hg & _).
  simpl in Hp, Hc, Hg.
  unfold step at 1. simpl.
  rewrite (reset_fixpoint _ Hp Hc Hg).
  apply narration_effect_same_deps.
Qed.

(** X4.  An advance from a scene that is not the last one moves to the next
    scene, keeps autoplay running, records the scene left and starts the
    new scene at progress 0. *)
Theorem advance_to_next_scene s :
  currentScene s < Z.of_nat (List.length scenes) - 1 ->
  advances s = true ->
  let s' := step scenes s Tick in
  currentScene s' = currentScene s + 1 /\
  isPlaying s' = true /\
  prevScene s' = Some (currentScene s) /\
  progress s' = 0%Q /\
  timers s' = timers s ++ [now s + 800].
Proof.
  intros Hbefore Hadv s'.
  destruct (step_view scenes s Tick)
    as (Hp & Hc & Hv & Hg & _ & _ & _ & _ & Ht).
  unfold s'. rewrite Hp, Hc, Hv, Hg, Ht. simpl.
  rewrite (tick_advancing scenes s Hadv). simpl.
  unfold advances in Hadv.
  apply andb_prop in Hadv. destruct Hadv as [Hrun _].
  apply andb_prop in Hrun. destruct Hrun as [Hplay _].
  unfold handleNext. simpl.
  apply Z.ltb_lt in Hbefore. rewrite Hbefore.
  apply Z.ltb_lt in Hbefore.
  destruct (Z.eqb_spec (currentScene s) (Z.of_nat (List.length scenes) - 1));
    [lia|].
  rewrite andb_false_r. simpl. repeat split. exact Hplay.
Qed.

(** X5.  In every reachable state the pending clear-timers are all due within
    the next 800 ms, and a transition record is present only while one of
    them is pending. *)
Theorem transition_record_has_timer events :
  let s := run scenes events init in
  Forall (fun d => now s < d <= now s + 800) (timers s) /\
  (forall from, prevScene s = Some from ->
                exists d, In d (timers s) /\ now s < d <= now s + 800).
Proof.
  intros s. destruct (reachable_timers_ok scenes events) as [Hall Hrec].
  fold s in Hall, Hrec. split; [exact Hall|].
  intros from Hfrom.
  destruct (timers s) as [|d rest] eqn:Ht.
  - exfalso. apply Hrec; [rewrite Hfrom; discriminate | reflexivity].
  - exists d. split; [left; reflexivity|].
    inversion Hall; assumption.
Qed.

(** X6.  The narration is touched only by the narration button, by an answer
    of the service, by the end of a source and by a change of scene.
    Every other event that keeps the scene (pause, play, hovering, a tick
    that does not advance, the passing of time, a jump to the current
    scene, a reset on scene 0) leaves the narration flag, the requests in
    flight, the sounding sources and the active source as they are. *)
Theorem narration_untouched s e :
  e <> ToggleNarration ->
  (forall request r, e <> Settle request r) ->
  (forall source, e <> Ended source) ->
  currentScene (step scenes s e) = currentScene s ->
  let s' := step scenes s e in
  isNarrating s' = isNarrating s /\ requests s' = requests s /\
  sounding s' = sounding s /\ activeSourceRef s' = activeSourceRef s.
Proof.
  intros Hbutton Hanswer Hend Hscene s'.
  destruct (step_view scenes s e) as (_ & Hc & _).
  rewrite Hc in Hscene.
  assert (Haudio : isNarrating (handle scenes e s) = isNarrating s /\
                   requests (handle scenes e s) = requests s /\
                   sounding (handle scenes e s) = sounding s /\
                   activeSourceRef (handle scenes e s) = activeSourceRef s).
  { destruct e; simpl; try (repeat split; reflexivity).
    - unfold jumpToScene. destruct (index =? currentScene s);
        repeat split; reflexivity.
    - congruence.
    - unfold tick.
      destruct (isPlaying s && negb (isHoveringChart s));
        [|repeat split; reflexivity].
      destruct (Qle_bool 100 (progress s + tick_increment));
        [|repeat split; reflexivity].
      unfold handleNext. simpl.
      destruct ((_ =? 0) && _); repeat split; reflexivity.
    - unfold elapse. destruct (ms <? 0); [repeat split; reflexivity|].
      destruct (existsb _ _); repeat split; reflexivity.
    - exfalso. apply (Hanswer request r). reflexivity.
    - exfalso. apply (Hend source). reflexivity. }
  destruct Haudio as (Hn & Hr & Hs & Ha).
  unfold s', step.
  rewrite narration_effect_idle by congruence.
  repeat split; assumption.
Qed.

Lemma playCaption_context text a :
  audioContextRef (playCaption text a) = audioContextRef a.
Proof.
  unfold playCaption. destruct (audioContextRef a) eqn:Hctx; simpl;
    [|exact Hctx].
  destruct (activeSourceRef a); simpl; exact Hctx.
Qed.

Lemma narration_effect_context old new :
  audioContextRef (narration_effect scenes old new) = audioContextRef new.
Proof.
  unfold narration_effect.
  destruct ((currentScene old =? currentScene new)
            && Bool.eqb (isNarrating old) (isNarrating new));
    [reflexivity|].
  set (cleaned := match activeSourceRef new with
                  | Some source => stop source new
                  | None => new
                  end).
  assert (Hclean : audioContextRef cleaned = audioContextRef new)
    by (unfold cleaned; destruct (activeSourceRef new); reflexivity).
  destruct (isNarrating cleaned); [|exact Hclean].
  unfold narrate. destruct (scene_at scenes (currentScene cleaned));
    [|exact Hclean].
  rewrite playCaption_context. exact Hclean.
Qed.

(** Before the narration button is clicked for the first time nothing of
    the audio side exists. *)
Lemma no_audio_without_context s e :
  (audioContextRef s = false ->
   isNarrating s = false /\ requests s = [] /\ sounding s = [] /\
   activeSourceRef s = None) ->
  audioContextRef (step scenes s e) = false ->
  isNarrating (step scenes s e) = false /\ requests (step scenes s e) = [] /\
  sounding (step scenes s e) = [] /\ activeSourceRef (step scenes s e) = None.
Proof.
  intros Hs Hoff.
  pose proof (narration_effect_context s) as Hkeep.
  unfold step in *. rewrite Hkeep in Hoff.
  assert (Hbefore : audioContextRef s = false).
  { destruct e; simpl in Hoff; try exact Hoff.
    - unfold jumpToScene in Hoff.
      destruct (index =? currentScene s); exact Hoff.
    - unfold toggleNarration in Hoff. simpl in Hoff.
      destruct (isNarrating s); simpl in Hoff.
      + destruct (activeSourceRef s); simpl in Hoff; discriminate.
      + unfold narrate in Hoff. simpl in Hoff.
        destruct (scene_at scenes (currentScene s));
          [rewrite playCaption_context in Hoff|];
          simpl in Hoff; discriminate.
    - unfold tick in Hoff.
      destruct (isPlaying s && negb (isHoveringChart s)); [|exact Hoff].
      destruct (Qle_bool 100 (progress s + tick_increment)); [|exact Hoff].
      unfold handleNext in Hoff. simpl in Hoff.
      destruct ((_ =? 0) && _); exact Hoff.
    - unfold elapse in Hoff. destruct (ms <? 0); [exact Hoff|].
      destruct (existsb _ _); exact Hoff.
    - unfold settle in Hoff. destruct (existsb _ _); [|exact Hoff].
      destruct r; simpl in Hoff; try exact Hoff.
      destruct (decodeAudioData _ _ _); exact Hoff. }
  destruct (Hs Hbefore) as (Hn & Hr & Hso & Ha).
  assert (Hhandle : isNarrating (handle scenes e s) = false /\
                    requests (handle scenes e s) = [] /\
                    sounding (handle scenes e s) = [] /\
                    activeSourceRef (handle scenes e s) = None).
  { destruct e; simpl; try (repeat split; assumption).
    - unfold jumpToScene. destruct (index =? currentScene s);
        repeat split; assumption.
    - exfalso. simpl in Hoff.
      unfold toggleNarration in Hoff. simpl in Hoff. rewrite Hn in Hoff.
      simpl in Hoff. unfold narrate in Hoff. simpl in Hoff.
      destruct (scene_at scenes (currentScene s));
        [rewrite playCaption_context in Hoff|];
        simpl in Hoff; discriminate.
    - unfold tick.
      destruct (isPlaying s && negb (isHoveringChart s));
        [|repeat split; assumption].
      destruct (Qle_bool 100 (progress s + tick_increment));
        [|repeat split; assumption].
      unfold handleNext. simpl.
      destruct ((_ =? 0) && _); repeat split; assumption.
    - unfold elapse. destruct (ms <? 0); [repeat split; assumption|].
      destruct (existsb _ _); repeat split; assumption.
    - unfold settle. rewrite Hr. simpl. repeat split; assumption.
    - unfold stop. simpl. rewrite Hso. simpl. repeat split; assumption. }
  destruct Hhandle as (Hn' & Hr' & Hso' & Ha').
  unfold narration_effect.
  destruct (_ && _); [repeat split; assumption|].
  rewrite Ha', Hn'. repeat split; assumption.
Qed.

(** X7.  In every reachable state, narration that is on has its audio context:
    the early return of [playCaption] is never taken by the narration
    effect, and as long as the context does not exist no request was sent
    and no source was started. *)
Theorem narration_has_context events :
  let s := run scenes events init in
  (isNarrating s = true -> audioContextRef s = true) /\
  (audioContextRef s = false ->
   requests s = [] /\ sounding s = [] /\ activeSourceRef s = None).
Proof.
  intros s.
  assert (Hinv : audioContextRef s = false ->
                 isNarrating s = false /\ requests s = [] /\
                 sounding s = [] /\ activeSourceRef s = None).
  { unfold s.
    apply (run_invariant scenes
             (fun s => audioContextRef s = false ->
                       isNarrating s = false /\ requests s = [] /\
                       sounding s = [] /\ activeSourceRef s = None)).
    - intros s0 e. apply no_audio_without_context.
    - intros _. repeat split. }
  split.
  - intros Hon. destruct (audioContextRef s) eqn:Hctx; [reflexivity|].
    destruct (Hinv eq_refl) as (Hoff & _). congruence.
  - intros Hctx. destruct (Hinv Hctx) as (_ & H). exact H.
Qed.

(** X8.  A jump to another scene of the catalog while narration is on stops
    the active source, forgets it, and sends exactly one request, for the
    caption of the scene jumped to.  Requests already in flight stay in
    flight. *)
Theorem jump_restarts_narration s index scene :
  isNarrating s = true -> audioContextRef s = true ->
  index <> currentScene s ->
  scene_at scenes index = Some scene ->
  let s' := step scenes s (JumpTo index) in
  requests s' = requests s ++ [(fresh s, caption scene)] /\
  activeSourceRef s' = None /\
  incl (sounding s') (sounding s) /\
  (forall source, activeSourceRef s = Some source ->
                  ~ In source (sounding s')).
Proof.
  intros Hon Hctx Hne Hscene s'. unfold s', step. simpl.
  unfold jumpToScene. apply Z.eqb_neq in Hne. rewrite Hne.
  unfold narration_effect. simpl.
  rewrite Z.eqb_sym, Hne. simpl.
  destruct (activeSourceRef s) as [source|] eqn:Hactive; simpl;
    rewrite Hon; unfold narrate; simpl; rewrite Hscene;
    unfold playCaption; simpl; rewrite Hctx; simpl.
  - rewrite Hactive. simpl. repeat split.
    + eapply incl_tran; apply incl_filter.
    + intros source' Heq. inversion Heq; subst source'.
      intros Hin. apply filter_In in Hin. destruct Hin as [_ Hf].
      rewrite Nat.eqb_refl in Hf. discriminate.
  - rewrite ?Hactive. simpl. rewrite ?Hactive.
    split; [reflexivity|]. split; [reflexivity|].
    split; [apply incl_refl|].
    intros source Heq. discriminate.
Qed.

(** X9.  Switching narration off stops the active source and sends nothing;
    the requests in flight are left in flight and the reference to the
    stopped source is kept. *)
Theorem narration_off_stops_active_source s :
  isNarrating s = true ->
  let s' := step scenes s ToggleNarration in
  isNarrating s' = false /\
  requests s' = requests s /\
  activeSourceRef s' = activeSourceRef s /\
  incl (sounding s') (sounding s) /\
  (forall source, activeSourceRef s = Some source ->
                  ~ In source (sounding s')).
Proof.
  intros Hon s'. unfold s', step. simpl.
  unfold toggleNarration. simpl. rewrite Hon. simpl.
  unfold narration_effect.
  destruct (activeSourceRef s) as [source|] eqn:Hactive; simpl;
    rewrite Hon, Z.eqb_refl; simpl; rewrite ?Hactive; simpl.
  - split; [reflexivity|]. split; [reflexivity|].
    split; [first [reflexivity | exact Hactive]|].
    split.
    + eapply incl_tran; apply incl_filter.
    + intros source' Heq. inversion Heq; subst source'.
      intros Hin. apply filter_In in Hin. destruct Hin as [_ Hf].
      rewrite Nat.eqb_refl in Hf. discriminate.
  - split; [reflexivity|]. split; [reflexivity|].
    split; [first [reflexivity | exact Hactive]|].
    split; [apply incl_refl|].
    intros source Heq. discriminate.
Qed.

(** X10.  An answer with a payload that decodes starts a new source and makes
    it the active one, whatever the narration flag says by then; the
    sources that were sounding keep sounding. *)
Theorem late_answer_starts_source s request audioBytes buffer :
  In request (map fst (requests s)) ->
  decodeAudioData audioBytes 24000 1 = Ok buffer ->
  let s' := step scenes s (Settle request (InlineData audioBytes)) in
  sounding s' = sounding s ++ [fresh s] /\
  activeSourceRef s' = Some (fresh s) /\
  isNarrating s' = isNarrating s /\
  ~ In request (map fst (requests s')).
Proof.
  intros Hin Hdecode s'. unfold s', step. simpl.
  assert (Hpending : existsb (fun p => (fst p =? request)%nat) (requests s)
                     = true).
  { apply existsb_exists. apply in_map_iff in Hin.
    destruct Hin as [p [Hp Hin]]. exists p. split; [exact Hin|].
    rewrite Hp. apply Nat.eqb_refl. }
  unfold settle. rewrite Hpending, Hdecode. simpl.
  rewrite narration_effect_idle by reflexivity. simpl.
  repeat split. apply request_settled.
Qed.

End PlayerBehaviour.

Section PlayerBehaviourWitnesses.

Import Audio Player.

(** A hover of 900 ms during a transition: the clear-timer fires, the
    progress is held. *)
Lemma hover_holds_progress_witness :
  let s := run presentation [TogglePlay; Tick; JumpTo 4; Tick; Elapse 100]
             init in
  isHoveringChart s = false /\
  run presentation
    (MouseEnter :: repeat Tick 3 ++ Elapse 900 :: repeat Tick 2
     ++ [MouseLeave]) s
  = step presentation s (Elapse 900) /\
  progress
    (run presentation
       (MouseEnter :: repeat Tick 3 ++ Elapse 900 :: repeat Tick 2
        ++ [MouseLeave]) s)
  = progress s.
Proof.
  intros s.
  assert (Hout : isHoveringChart s = false) by (vm_compute; reflexivity).
  destruct (hover_holds_progress presentation s 3 900 2 Hout)
    as (Hstate & Hprogress & _).
  split; [exact Hout|]. split; [exact Hstate | exact Hprogress].
Defined.

Lemma advance_to_next_scene_witness :
  let s := set_progress (595 # 6)
             (run presentation [JumpTo 2; TogglePlay] init) in
  currentScene s < Z.of_nat (List.length presentation) - 1 /\
  advances s = true /\
  currentScene (step presentation s Tick) = currentScene s + 1 /\
  isPlaying (step presentation s Tick) = true.
Proof.
  intros s.
  assert (Hbefore : currentScene s < Z.of_nat (List.length presentation) - 1)
    by (vm_compute; reflexivity).
  assert (Hadv : advances s = true) by (vm_compute; reflexivity).
  destruct (advance_to_next_scene presentation s Hbefore Hadv)
    as (Hnext & Hplay & _).
  split; [exact Hbefore|]. split; [exact Hadv|].
  split; [exact Hnext | exact Hplay].
Defined.

Lemma transition_record_has_timer_witness :
  let s := run presentation [JumpTo 3; Elapse 200] init in
  prevScene s = Some 0 /\
  exists d, In d (timers s) /\ now s < d <= now s + 800.
Proof.
  intros s.
  assert (Hrec : prevScene s = Some 0) by (vm_compute; reflexivity).
  split; [exact Hrec|].
  destruct (transition_record_has_timer presentation [JumpTo 3; Elapse 200])
    as [_ Htimer].
  exact (Htimer 0 Hrec).
Defined.

Lemma narration_untouched_witness :
  let s := run presentation
             [ToggleNarration; Settle 0 (InlineData [x00; x80; xff; x7f])]
             init in
  currentScene (step presentation s TogglePlay) = currentScene s /\
  sounding (step presentation s TogglePlay) = sounding s /\
  requests (step presentation s TogglePlay) = requests s.
Proof.
  intros s.
  assert (Hbutton : TogglePlay <> ToggleNarration) by discriminate.
  assert (Hanswer : forall request r, TogglePlay <> Settle request r)
    by (intros; discriminate).
  assert (Hend : forall source, TogglePlay <> Ended source)
    by (intros; discriminate).
  assert (Hscene : currentScene (step presentation s TogglePlay)
                   = currentScene s) by (vm_compute; reflexivity).
  destruct (narration_untouched presentation s TogglePlay
              Hbutton Hanswer Hend Hscene) as (_ & Hr & Hs & _).
  split; [exact Hscene|]. split; [exact Hs | exact Hr].
Defined.

Lemma narration_has_context_witness :
  let s := run presentation [ToggleNarration; JumpTo 2] init in
  isNarrating s = true /\ audioContextRef s = true.
Proof.
  intros s.
  assert (Hon : isNarrating s = true) by (vm_compute; reflexivity).
  split; [exact Hon|].
  destruct (narration_has_context presentation [ToggleNarration; JumpTo 2])
    as [Hctx _].
  exact (Hctx Hon).
Defined.

Lemma jump_restarts_narration_witness :
  let s := run presentation
             [ToggleNarration; Settle 0 (InlineData [x00; x80; xff; x7f]);
              Settle 1 NoAudio]
             init in
  isNarrating s = true /\ audioContextRef s = true /\
  3 <> currentScene s /\
  scene_at presentation 3 = nth_error presentation 3 /\
  activeSourceRef s = Some 2%nat /\
  activeSourceRef (step presentation s (JumpTo 3)) = None /\
  ~ In 2%nat (sounding (step presentation s (JumpTo 3))).
Proof.
  intros s.
  assert (Hon : isNarrating s = true) by (vm_compute; reflexivity).
  assert (Hctx : audioContextRef s = true) by (vm_compute; reflexivity).
  assert (Hne : 3 <> currentScene s) by (vm_compute; discriminate).
  assert (Hactive : activeSourceRef s = Some 2%nat)
    by (vm_compute; reflexivity).
  destruct (jump_restarts_narration presentation s 3
              (mkScene "architecture" "THE ARCHITECTURE"
                 "We employ Transfer Learning. Instead of teaching a model English from scratch, we use RoBERTa, which already understands syntax and nuance, and fine-tune it to detect disasters.")
              Hon Hctx Hne eq_refl)
    as (_ & Hnone & _ & Hsilent).
  split; [exact Hon|]. split; [exact Hctx|]. split; [exact Hne|].
  split; [reflexivity|]. split; [exact Hactive|].
  split; [exact Hnone | exact (Hsilent 2%nat Hactive)].
Defined.

Lemma narration_off_stops_active_source_witness :
  let s := run presentation
             [ToggleNarration; Settle 0 (InlineData [x00; x80; xff; x7f])]
             init in
  isNarrating s = true /\
  activeSourceRef s = Some 2%nat /\
  isNarrating (step presentation s ToggleNarration) = false /\
  requests (step presentation s ToggleNarration) = requests s /\
  ~ In 2%nat (sounding (step presentation s ToggleNarration)).
Proof.
  intros s.
  assert (Hon : isNarrating s = true) by (vm_compute; reflexivity).
  assert (Hactive : activeSourceRef s = Some 2%nat)
    by (vm_compute; reflexivity).
  destruct (narration_off_stops_active_source presentation s Hon)
    as (Hoff & Hreq & _ & _ & Hsilent).
  split; [exact Hon|]. split; [exact Hactive|]. split; [exact Hoff|].
  split; [exact Hreq | exact (Hsilent 2%nat Hactive)].
Defined.

(** Narration is switched on and off again while both requests are in
    flight; the answer to the first one still starts a source. *)
Lemma late_answer_starts_source_witness :
  let s := run presentation [ToggleNarration; ToggleNarration] init in
  isNarrating s = false /\
  In 0%nat (map fst (requests s)) /\
  sounding (step presentation s (Settle 0 (InlineData [x00; x80; xff; x7f])))
    = sounding s ++ [fresh s].
Proof.
  intros s.
  assert (Hoff : isNarrating s = false) by (vm_compute; reflexivity).
  assert (Hin : In 0%nat (map fst (requests s)))
    by (vm_compute; left; reflexivity).
  assert (Hdecode :
            decodeAudioData [x00; x80; xff; x7f] 24000 1
            = Ok (mkAudioBuffer 1 2 24000
                    [[(inject_Z (-32768) / 32768)%Q;
                      (inject_Z 32767 / 32768)%Q]]))
    by (vm_compute; reflexivity).
  destruct (late_answer_starts_source presentation s 0 _ _ Hin Hdecode)
    as (Hsound & _).
  split; [exact Hoff|]. split; [exact Hin | exact Hsound].
Defined.

End PlayerBehaviourWitnesses.

(** ** Further behaviour of the decoder *)

Section DecoderBehaviour.

Import Audio Player.

Lemma Int16Array_length data : forall dataInt16,
  Int16Array data = Ok dataInt16 ->
  (2 * List.length dataInt16 = List.length data)%nat.
Proof.
  induction data as [| b | lo hi rest IH] using byte_pairs_ind;
    intros dataInt16 H; simpl in H.
  - inversion H. reflexivity.
  - discriminate.
  - destruct (Int16Array rest) as [samples|e] eqn:E; [|discriminate].
    inversion H; subst. simpl. specialize (IH samples eq_refl). lia.
Qed.

Lemma map_nth_seq {A B : Type} (g : A -> B) (l : list A) (d : A) :
  map (fun i => g (nth i l d)) (seq 0 (List.length l)) = map g l.
Proof.
  apply (nth_ext _ _ (g d) (g d)).
  - rewrite !length_map, length_seq. reflexivity.
  - intros n Hn. rewrite length_map, length_seq in Hn.
    rewrite (nth_map_seq (fun i => g (nth i l d))) by exact Hn.
    rewrite map_nth. reflexivity.
Qed.

(** X11.  A payload with an odd number of bytes is refused with a RangeError,
    whatever the channel count and the sample rate. *)
Theorem decodeAudioData_odd_length data rate numChannels :
  Nat.even (List.length data) = false ->
  decodeAudioData data rate numChannels = Throw RangeError.
Proof.
  intros Hodd. unfold decodeAudioData.
  rewrite (Int16Array_odd data Hodd). reflexivity.
Qed.

Lemma decodeAudioData_odd_length_witness :
  Nat.even (List.length [x00; x80; xff]) = false /\
  decodeAudioData [x00; x80; xff] 24000 1 = Throw RangeError.
Proof.
  assert (Hodd : Nat.even (List.length [x00; x80; xff]) = false)
    by reflexivity.
  split; [exact Hodd|].
  exact (decodeAudioData_odd_length [x00; x80; xff] 24000 1 Hodd).
Defined.

(** X12.  A payload that holds fewer samples than there are channels, in
    particular an empty payload, and a channel count of zero are refused
    with a NotSupportedError: no buffer without a frame is ever
    produced. *)
Theorem decodeAudioData_no_frame data rate numChannels dataInt16 :
  Int16Array data = Ok dataInt16 ->
  (numChannels = 0 \/ List.length dataInt16 < numChannels)%nat ->
  decodeAudioData data rate numChannels = Throw NotSupportedError.
Proof.
  intros Hview Hfew. unfold decodeAudioData. rewrite Hview.
  destruct (createBuffer_accepts numChannels
              (List.length dataInt16 / numChannels) rate) eqn:Haccepts;
    [|reflexivity].
  apply createBuffer_accepts_iff in Haccepts.
  destruct Haccepts as (Hchannels & Hframe & _).
  destruct Hfew as [Hzero|Hfew]; [lia|].
  rewrite (Nat.div_small _ _ Hfew) in Hframe. lia.
Qed.

Lemma decodeAudioData_no_frame_witness :
  Int16Array [x01; x00] = Ok [1] /\
  (List.length [1] < 2)%nat /\
  decodeAudioData [x01; x00] 24000 2 = Throw NotSupportedError /\
  decodeAudioData [] 24000 1 = Throw NotSupportedError.
Proof.
  assert (Hview : Int16Array [x01; x00] = Ok [1]) by reflexivity.
  assert (Hfew : (List.length [1] < 2)%nat) by (simpl; lia).
  assert (Hempty : Int16Array [] = Ok []) by reflexivity.
  split; [exact Hview|]. split; [exact Hfew|]. split.
  - exact (decodeAudioData_no_frame [x01; x00] 24000 2 [1] Hview
             (or_intror Hfew)).
  - apply (decodeAudioData_no_frame [] 24000 1 [] Hempty).
    right. simpl. lia.
Defined.

(** X13.  Mono decoding at a supported sample rate, the way
    [playCaption] calls the decoder at 24000 Hz: the single channel holds
    the samples in payload order, each divided by 32768, one frame per
    sample. *)
Theorem decodeAudioData_mono data rate dataInt16 :
  Int16Array data = Ok dataInt16 ->
  dataInt16 <> [] ->
  8000 <= rate <= 96000 ->
  decodeAudioData data rate 1 =
  Ok (mkAudioBuffer 1 (List.length dataInt16) rate
        [map (fun v => (inject_Z v / 32768)%Q) dataInt16]).
Proof.
  intros Hview Hsome Hrate. unfold decodeAudioData. rewrite Hview.
  rewrite Nat.div_1_r.
  assert (Haccepts : createBuffer_accepts 1 (List.length dataInt16) rate
                     = true).
  { apply createBuffer_accepts_iff. split; [lia|]. split; [|exact Hrate].
    destruct dataInt16; [contradiction | simpl; lia]. }
  rewrite Haccepts. f_equal. f_equal. simpl. f_equal.
  rewrite <- (map_nth_seq (fun v => (inject_Z v / 32768)%Q) dataInt16 0).
  apply map_ext. intros i. rewrite Nat.mul_1_r, Nat.add_0_r. reflexivity.
Qed.

Lemma decodeAudioData_mono_witness :
  Int16Array [x00; x80; xff; x7f; x00; x40] = Ok [-32768; 32767; 16384] /\
  8000 <= 24000 <= 96000 /\
  decodeAudioData [x00; x80; xff; x7f; x00; x40] 24000 1 =
  Ok (mkAudioBuffer 1 3 24000
        [map (fun v => (inject_Z v / 32768)%Q) [-32768; 32767; 16384]]).
Proof.
  assert (Hview : Int16Array [x00; x80; xff; x7f; x00; x40]
                  = Ok [-32768; 32767; 16384]) by reflexivity.
  assert (Hrate : 8000 <= 24000 <= 96000) by lia.
  split; [exact Hview|]. split; [exact Hrate|].
  apply (decodeAudioData_mono _ 24000 _ Hview); [discriminate | exact Hrate].
Defined.

(** X14.  The buffer has the shape it announces: as many channels as asked for,
    each with [length] frames; the frames cover at most the payload, so
    the samples of a trailing partial frame are dropped. *)
Theorem decodeAudioData_shape data rate numChannels buffer :
  decodeAudioData data rate numChannels = Ok buffer ->
  numberOfChannels buffer = numChannels /\
  sampleRate buffer = rate /\
  List.length (channels buffer) = numChannels /\
  Forall (fun channelData => List.length channelData = length buffer)
         (channels buffer) /\
  (1 <= length buffer)%nat /\
  (2 * (numChannels * length buffer) <= List.length data)%nat /\
  (List.length data < 2 * (numChannels * (length buffer + 1)))%nat.
Proof.
  unfold decodeAudioData. intros Hdecode.
  destruct (Int16Array data) as [dataInt16|e] eqn:Hview; [|discriminate].
  pose proof (Int16Array_length data dataInt16 Hview) as Hlen.
  destruct (createBuffer_accepts numChannels
              (List.length dataInt16 / numChannels) rate) eqn:Haccepts;
    [|discriminate].
  apply createBuffer_accepts_iff in Haccepts.
  destruct Haccepts as (Hchannels & Hsome & _).
  assert (Hpos : numChannels <> 0%nat) by lia.
  inversion Hdecode; subst buffer; clear Hdecode. simpl.
  split; [reflexivity|]. split; [reflexivity|].
  split; [rewrite length_map, length_seq; reflexivity|].
  split.
  - rewrite Forall_forall. intros channelData Hin.
    apply in_map_iff in Hin. destruct Hin as [channel [Heq _]].
    subst channelData. rewrite length_map, length_seq. reflexivity.
  - pose proof (Nat.Div0.mul_div_le (List.length dataInt16) numChannels).
    pose proof (Nat.mul_succ_div_gt (List.length dataInt16) numChannels Hpos).
    split; [lia|]. split; nia.
Qed.

(** Three samples decoded as stereo: one frame, the third sample
    dropped. *)
Lemma decodeAudioData_shape_witness :
  exists buffer,
    decodeAudioData [x00; x80; xff; x7f; x00; x40] 24000 2 = Ok buffer /\
    length buffer = 1%nat /\ List.length (channels buffer) = 2%nat.
Proof.
  eexists. split; [vm_compute; reflexivity|].
  match goal with
  | |- length ?b = _ /\ _ =>
      destruct (decodeAudioData_shape [x00; x80; xff; x7f; x00; x40]
                  24000 2 b ltac:(vm_compute; reflexivity))
        as (_ & _ & Hchannels & _)
  end.
  split; [reflexivity | exact Hchannels].
Defined.

(** X15.  Which answers make the narration play: an inline payload is decoded
    and played exactly when it holds a whole, positive number of 16-bit
    samples; every other payload switches narration off. *)
Theorem narration_fails_iff audioBytes :
  narration_fails (InlineData audioBytes) = false <->
  Nat.even (List.length audioBytes) = true /\ audioBytes <> [].
Proof.
  unfold narration_fails, decodeAudioData. split.
  - intros Hplays.
    destruct (Nat.even (List.length audioBytes)) eqn:Heven.
    + split; [reflexivity|]. intros Hempty. subst. discriminate Hplays.
    + rewrite (Int16Array_odd _ Heven) in Hplays. discriminate.
  - intros [Heven Hsome].
    destruct (Int16Array_even _ Heven) as [dataInt16 [Hview Hlen]].
    rewrite Hview. rewrite Nat.div_1_r.
    assert (Haccepts : createBuffer_accepts 1 (List.length dataInt16) 24000
                       = true).
    { apply createBuffer_accepts_iff. split; [lia|]. split; [|lia].
      destruct audioBytes; [contradiction|]. simpl in Hlen. lia. }
    rewrite Haccepts. reflexivity.
Qed.

Lemma narration_fails_iff_witness :
  narration_fails (InlineData [x00; x80]) = false /\
  narration_fails (InlineData [x00; x80; xff]) = true /\
  narration_fails (InlineData []) = true.
Proof.
  split.
  - apply (narration_fails_iff [x00; x80]). split; [reflexivity|discriminate].
  - split; vm_compute; reflexivity.
Defined.

End DecoderBehaviour.

(** ** The typing animation *)

Section TypingFacts.

Import TypingText.

Open Scope nat_scope.

Lemma substring_0_all (s : string) : forall n,
  String.length s <= n -> substring 0 n s = s.
Proof.
  induction s as [|c s IH]; intros n Hn.
  - destruct n; reflexivity.
  - destruct n as [|n]; simpl in *; [lia|].
    rewrite IH by lia. reflexivity.
Qed.

Lemma length_substring_0 (s : string) : forall n,
  String.length (substring 0 n s) = Nat.min n (String.length s).
Proof.
  induction s as [|c s IH]; intros n.
  - destruct n; reflexivity.
  - destruct n as [|n]; simpl; [reflexivity|].
    rewrite IH. reflexivity.
Qed.

Lemma prefix_substring_0 (s : string) : forall n,
  prefix (substring 0 n s) s = true.
Proof.
  induction s as [|c s IH]; intros n.
  - destruct n; reflexivity.
  - destruct n as [|n]; simpl; [reflexivity|].
    destruct (Ascii.ascii_dec c c) as [_|Hne]; [apply IH | contradiction].
Qed.

Variable text : string.

Lemma step_typing_ok s e :
  typing_ok text s -> typing_ok text (step text s e).
Proof.
  intros Hok. pose proof Hok as (Hshown & Hidle & Hpending).
  destruct e; simpl.
  - destruct (startTimeout s) eqn:Hto; [|exact Hok].
    destruct (Hidle (Hpending eq_refl)) as [Hzero _].
    unfold typing_ok. simpl. rewrite Hshown, Hzero.
    repeat split; discriminate.
  - destruct (interval s) eqn:Hint; [|exact Hok].
    unfold typing_ok. simpl. rewrite Nat.add_1_r.
    split; [reflexivity|]. split; [|exact Hpending].
    intros Hoff. destruct (Hidle Hoff) as [_ Hno]. congruence.
Qed.

Lemma run_typing_ok events : forall s,
  typing_ok text s -> typing_ok text (run text events s).
Proof.
  induction events as [|e events IH]; intros s Hs; [exact Hs|].
  simpl. apply IH. apply step_typing_ok. exact Hs.
Qed.

(** X16.  Whatever fires and in whatever order, the component shows a prefix of
    its text, never more than the text, and nothing at all before the
    start timeout has fired. *)
Theorem typing_shows_prefix events :
  let s := run text events init in
  prefix (displayedText s) text = true /\
  String.length (displayedText s) <= String.length text /\
  (started s = false -> displayedText s = EmptyString).
Proof.
  intros s.
  assert (Hok : typing_ok text s).
  { apply run_typing_ok. repeat split; try reflexivity.
    destruct text; reflexivity. }
  destruct Hok as (Hshown & Hidle & _).
  rewrite Hshown. split; [apply prefix_substring_0|].
  split.
  - rewrite length_substring_0. apply Nat.le_min_r.
  - intros Hoff. destruct (Hidle Hoff) as [Hzero _]. rewrite Hzero.
    destruct text; reflexivity.
Qed.

Lemma interval_fires s :
  interval s = true ->
  step text s IntervalFires =
  mkState (substring 0 (i s + 1) text) (started s) (startTimeout s)
    (S (i s)) (negb (String.length text <? S (i s))).
Proof. intros Hint. simpl. rewrite Hint. reflexivity. Qed.

Lemma interval_cleared s :
  interval s = false -> step text s IntervalFires = s.
Proof. intros Hint. simpl. rewrite Hint. reflexivity. Qed.

Lemma typing_after_firings k :
  let s := run text (TimeoutFires :: repeat IntervalFires k) init in
  displayedText s = substring 0 k text /\
  started s = true /\
  i s = Nat.min k (S (String.length text)) /\
  interval s = (k <=? String.length text).
Proof.
  induction k as [|k IH].
  - simpl. repeat split. destruct text; reflexivity.
  - cbv zeta in *.
    replace (TimeoutFires :: repeat IntervalFires (S k))
      with ((TimeoutFires :: repeat IntervalFires k) ++ [IntervalFires])
      by (rewrite <- app_comm_cons, <- repeat_cons; reflexivity).
    unfold run in *. rewrite fold_left_app.
    destruct IH as (Hshown & Hstarted & Hi & Hint).
    set (s := fold_left (step text) (TimeoutFires :: repeat IntervalFires k)
                init) in *.
    cbn [fold_left].
    destruct (Nat.leb_spec k (String.length text)) as [Hle|Hgt].
    + rewrite (interval_fires s Hint).
      cbn [displayedText started i interval].
      rewrite Hi, Nat.min_l by lia. rewrite Nat.add_1_r.
      split; [reflexivity|]. split; [exact Hstarted|]. split.
      * rewrite Nat.min_l by lia. reflexivity.
      * destruct (Nat.ltb_spec (String.length text) (S k));
          destruct (Nat.leb_spec (S k) (String.length text));
          try reflexivity; lia.
    + rewrite (interval_cleared s Hint).
      rewrite Hshown, Hi.
      rewrite !substring_0_all by lia.
      split; [reflexivity|]. split; [exact Hstarted|]. split.
      * rewrite !Nat.min_r by lia. reflexivity.
      * rewrite Hint. symmetry. apply Nat.leb_gt. lia.
Qed.

(** X17.  After the start timeout and [k] firings of the interval the first [k]
    characters are shown.  The text is complete from firing
    [text.length] on, the cursor shows exactly while it is incomplete,
    and firing [text.length + 1] clears the interval. *)
Theorem typing_progress k :
  let s := run text (TimeoutFires :: repeat IntervalFires k) init in
  displayedText s = substring 0 k text /\
  (String.length text <= k -> displayedText s = text) /\
  cursor text s = (k <? String.length text) /\
  interval s = (k <=? String.length text).
Proof.
  intros s.
  destruct (typing_after_firings k) as (Hshown & Hstarted & _ & Hint).
  fold s in Hshown, Hstarted, Hint.
  split; [exact Hshown|]. split; [|split; [|exact Hint]].
  - intros Hdone. rewrite Hshown. apply substring_0_all. exact Hdone.
  - unfold cursor. rewrite Hstarted, Hshown, length_substring_0. simpl.
    destruct (Nat.ltb_spec (Nat.min k (String.length text))
                (String.length text));
      destruct (Nat.ltb_spec k (String.length text));
      try reflexivity; lia.
Qed.

End TypingFacts.

Lemma typing_shows_prefix_witness :
  TypingText.started
    (TypingText.run "Objective" [TypingText.IntervalFires] TypingText.init)
    = false /\
  TypingText.displayedText
    (TypingText.run "Objective" [TypingText.IntervalFires] TypingText.init)
    = EmptyString.
Proof.
  assert (Hoff : TypingText.started
                   (TypingText.run "Objective" [TypingText.IntervalFires]
                      TypingText.init) = false) by reflexivity.
  split; [exact Hoff|].
  destruct (typing_shows_prefix "Objective" [TypingText.IntervalFires])
    as (_ & _ & Hnothing).
  exact (Hnothing Hoff).
Defined.

Lemma typing_progress_witness :
  (String.length "Objective" <= 9)%nat /\
  TypingText.displayedText
    (TypingText.run "Objective"
       (TypingText.TimeoutFires :: repeat TypingText.IntervalFires 9)
       TypingText.init) = "Objective"%string.
Proof.
  assert (Hdone : (String.length "Objective" <= 9)%nat) by (simpl; lia).
  split; [exact Hdone|].
  destruct (typing_progress "Objective" 9) as (_ & Hfull & _).
  exact (Hfull Hdone).
Defined.

(** ** The insight request *)

Section InsightFacts.

Import Insights.

Lemma insight_step_invariant s e :
  (inflight s <= 1)%nat /\ (isGenerating s = true <-> inflight s = 1%nat) ->
  (inflight (step s e) <= 1)%nat /\
  (isGenerating (step s e) = true <-> inflight (step s e) = 1%nat).
Proof.
  destruct s as [insight generating pending]. simpl.
  intros [Hone [Hon Hoff]].
  destruct e; simpl.
  - destruct generating; simpl.
    + split; [exact Hone | split; assumption].
    + assert (pending = 0%nat).
      { destruct pending as [|[|n]]; [reflexivity| |lia].
        discriminate (Hoff eq_refl). }
      subst pending. split; [lia|]. split; reflexivity.
  - unfold settle. simpl. destruct pending as [|n]; simpl.
    + split; [lia | split; assumption].
    + split; [lia|]. split; intros; [discriminate | lia].
  - split; [exact Hone | split; assumption].
Qed.

(** X18.  At most one insight request is in flight at any time, and
    [isGenerating], which disables the button, is true exactly while one
    is: every request is followed by its answer before the next one can be
    sent. *)
Theorem one_insight_request events :
  let s := run events init in
  (inflight s <= 1)%nat /\ (isGenerating s = true <-> inflight s = 1%nat).
Proof.
  intros s. unfold s, run.
  assert (H : forall s0,
             (inflight s0 <= 1)%nat /\
             (isGenerating s0 = true <-> inflight s0 = 1%nat) ->
             (inflight (fold_left step events s0) <= 1)%nat /\
             (isGenerating (fold_left step events s0) = true <->
              inflight (fold_left step events s0) = 1%nat)).
  { induction events as [|e events IH]; intros s0 Hs0; [exact Hs0|].
    simpl. apply IH. apply insight_step_invariant. exact Hs0. }
  apply H. simpl. split; [lia|]. split; intros; discriminate.
Qed.

End InsightFacts.

Lemma one_insight_request_witness :
  Insights.isGenerating
    (Insights.run [Insights.ClickInsights; Insights.ClickInsights;
                   Insights.Dismiss; Insights.ClickInsights]
       Insights.init) = true /\
  Insights.inflight
    (Insights.run [Insights.ClickInsights; Insights.ClickInsights;
                   Insights.Dismiss; Insights.ClickInsights]
       Insights.init) = 1%nat.
Proof.
  assert (Hgen : Insights.isGenerating
                   (Insights.run
                      [Insights.ClickInsights; Insights.ClickInsights;
                       Insights.Dismiss; Insights.ClickInsights]
                      Insights.init) = true) by reflexivity.
  split; [exact Hgen|].
  destruct (one_insight_request
              [Insights.ClickInsights; Insights.ClickInsights;
               Insights.Dismiss; Insights.ClickInsights]) as [_ Hflag].
  exact (proj1 Hflag Hgen).
Defined.


(** ** The metric summaries *)

Section SortFacts.

Import Metrics.

Context {A : Type}.

Variable before : A -> A -> bool.

Lemma insert_perm x l : Permutation (insert before x l) (x :: l).
Proof.
  induction l as [|y l IH]; simpl; [apply Permutation_refl|].
  destruct (before x y); [apply Permutation_refl|].
  eapply Permutation_trans; [apply perm_skip, IH | apply perm_swap].
Qed.

Lemma sort_perm l : Permutation (sort before l) l.
Proof.
  induction l as [|x l IH]; simpl; [apply Permutation_refl|].
  eapply Permutation_trans; [apply insert_perm | apply perm_skip, IH].
Qed.

Lemma In_sort a l : In a (sort before l) <-> In a l.
Proof.
  split; apply Permutation_in;
    [apply sort_perm | apply Permutation_sym, sort_perm].
Qed.

Hypothesis before_total :
  forall a b, before a b = false -> before b a = true.

Lemma insert_sorted x l :
  Sorted (fun a b => before a b = true) l ->
  Sorted (fun a b => before a b = true) (insert before x l).
Proof.
  induction l as [|y l IH]; intros Hl; simpl.
  - constructor; constructor.
  - destruct (before x y) eqn:Hxy.
    + constructor; [exact Hl | constructor; exact Hxy].
    + inversion Hl as [|? ? Hrest Hhd]; subst.
      constructor; [apply IH; exact Hrest|].
      destruct l as [|z l]; simpl.
      * constructor. apply before_total. exact Hxy.
      * destruct (before x z); constructor.
        -- apply before_total. exact Hxy.
        -- inversion Hhd; assumption.
Qed.

Lemma sort_sorted l : Sorted (fun a b => before a b = true) (sort before l).
Proof.
  induction l as [|x l IH]; simpl; [constructor|].
  apply insert_sorted. exact IH.
Qed.

Hypothesis before_trans :
  forall a b c, before a b = true -> before b c = true -> before a c = true.

(** The first element of the sorted array is an element of the array
    that nothing comes before strictly. *)
Lemma sort_head l :
  match hd_error (sort before l) with
  | Some b => In b l /\ forall a, In a l -> before b a = true \/ a = b
  | None => l = []
  end.
Proof.
  induction l as [|x l IH]; simpl; [reflexivity|].
  destruct (sort before l) as [|y rest] eqn:Hsorted; simpl in *.
  - subst l. split; [left; reflexivity|].
    intros a [Ha|[]]. right. symmetry. exact Ha.
  - destruct IH as [Hy Hbest].
    destruct (before x y) eqn:Hxy; simpl.
    + split; [left; reflexivity|].
      intros a [Ha|Ha]; [right; symmetry; exact Ha|].
      destruct (Hbest a Ha) as [Hya|Heq].
      * left. exact (before_trans x y a Hxy Hya).
      * subst a. left. exact Hxy.
    + split; [right; exact Hy|].
      intros a [Ha|Ha].
      * subst a. left. apply before_total. exact Hxy.
      * apply Hbest. exact Ha.
Qed.

End SortFacts.

Section DashboardFacts.

Import Metrics Dashboard.

Lemma Qltb_true a b : Qltb a b = true -> (a < b)%Q.
Proof.
  unfold Qltb. intros H. apply negb_true_iff in H.
  apply Qnot_le_lt. intros Hle. apply Qle_bool_iff in Hle. congruence.
Qed.

Lemma Qltb_false a b : Qltb a b = false -> (b <= a)%Q.
Proof.
  unfold Qltb. intros H. apply negb_false_iff in H.
  apply Qle_bool_iff. exact H.
Qed.

Lemma truthy_false v : truthy (Some v) = false -> (v == 0)%Q.
Proof.
  simpl. intros H. apply negb_false_iff in H.
  apply Qeq_bool_iff. exact H.
Qed.

Lemma truthy_true v : ~ (v == 0)%Q -> truthy (Some v) = true.
Proof.
  simpl. intros H. apply negb_true_iff.
  destruct (Qeq_bool v 0) eqn:E; [|reflexivity].
  apply Qeq_bool_iff in E. contradiction.
Qed.

Lemma get_Some key folds : forall f,
  get key folds = Some f -> In f folds /\ sfold f = key.
Proof.
  induction folds as [|g folds IH]; intros f H; simpl in H; [discriminate|].
  destruct (Z.eqb_spec (sfold g) key) as [Heq|Hne].
  - inversion H; subst. split; [left; reflexivity | reflexivity].
  - destruct (IH f H) as [Hin Hkey]. split; [right; exact Hin | exact Hkey].
Qed.

Lemma get_None key folds :
  get key folds = None -> ~ In key (map sfold folds).
Proof.
  induction folds as [|g folds IH]; intros H; simpl in *; [tauto|].
  destruct (Z.eqb_spec (sfold g) key) as [Heq|Hne]; [discriminate|].
  intros [Hg|Hin]; [contradiction | exact (IH H Hin)].
Qed.

Lemma put_present entry folds :
  In (sfold entry) (map sfold folds) ->
  map sfold (put entry folds) = map sfold folds.
Proof.
  induction folds as [|g folds IH]; intros Hin; simpl in *; [contradiction|].
  destruct (Z.eqb_spec (sfold g) (sfold entry)) as [Heq|Hne]; simpl.
  - rewrite Heq. reflexivity.
  - destruct Hin as [Hg|Hin]; [contradiction|].
    rewrite (IH Hin). reflexivity.
Qed.

Lemma put_absent entry folds :
  ~ In (sfold entry) (map sfold folds) ->
  put entry folds = folds ++ [entry].
Proof.
  induction folds as [|g folds IH]; intros Hout; simpl in *; [reflexivity|].
  destruct (Z.eqb_spec (sfold g) (sfold entry)) as [Heq|Hne]; [tauto|].
  rewrite IH by tauto. reflexivity.
Qed.

Lemma put_In entry folds : forall f,
  NoDup (map sfold folds) -> In f (put entry folds) ->
  f = entry \/ (In f folds /\ sfold f <> sfold entry).
Proof.
  induction folds as [|g folds IH]; intros f Hnodup Hin; simpl in *.
  - destruct Hin as [Hf|[]]. left. symmetry. exact Hf.
  - inversion Hnodup as [|? ? Hfresh Hrest]; subst.
    destruct (Z.eqb_spec (sfold g) (sfold entry)) as [Heq|Hne].
    + destruct Hin as [Hf|Hf]; [left; symmetry; exact Hf|].
      right. split; [right; exact Hf|].
      intros Hsame. apply Hfresh. rewrite Heq, <- Hsame.
      apply in_map. exact Hf.
    + destruct Hin as [Hf|Hf].
      * subst f. right. split; [left; reflexivity | exact Hne].
      * destruct (IH f Hrest Hf) as [Hentry|[Hold Hkey]];
          [left; exact Hentry | right; split; [right; exact Hold | exact Hkey]].
Qed.

Lemma put_NoDup entry folds :
  NoDup (map sfold folds) -> NoDup (map sfold (put entry folds)).
Proof.
  intros Hnodup.
  destruct (in_dec Z.eq_dec (sfold entry) (map sfold folds)) as [Hin|Hout].
  - rewrite (put_present _ _ Hin). exact Hnodup.
  - rewrite (put_absent _ _ Hout), map_app. simpl.
    apply NoDup_app; [exact Hnodup | repeat constructor; tauto |].
    intros a Ha [Hb|[]]. subst a. exact (Hout Ha).
Qed.

Lemma put_key entry folds key :
  In key (map sfold (put entry folds)) <->
  key = sfold entry \/ In key (map sfold folds).
Proof.
  destruct (in_dec Z.eq_dec (sfold entry) (map sfold folds)) as [Hin|Hout].
  - rewrite (put_present _ _ Hin). split; [tauto|].
    intros [Hk|Hk]; [subst; exact Hin | exact Hk].
  - rewrite (put_absent _ _ Hout), map_app, in_app_iff. simpl.
    split; intros [H|H]; try tauto.
    + destruct H as [H|[]]. left. symmetry. exact H.
    + right. left. symmetry. exact H.
Qed.

Lemma update_fold f0 m : sfold (update f0 m) = sfold f0.
Proof.
  unfold update.
  destruct (valF1 m); destruct (valLoss m); simpl;
    repeat match goal with
           | |- context [if ?c then _ else _] => destruct c; simpl
           end; reflexivity.
Qed.

Lemma update_epochs f0 m :
  epochs (update f0 m) = Z.max (epochs f0) (epoch m).
Proof.
  unfold update.
  destruct (valF1 m); destruct (valLoss m); simpl;
    repeat match goal with
           | |- context [if ?c then _ else _] => destruct c; simpl
           end; reflexivity.
Qed.

Lemma update_maxF1 f0 m :
  maxF1 (update f0 m) =
  match valF1 m with
  | Some v => if truthy (Some v) && Qltb (maxF1 f0) v then v else maxF1 f0
  | None => maxF1 f0
  end.
Proof.
  unfold update. cbv zeta. cbn [maxF1 minLoss sfold epochs].
  destruct (valF1 m) as [v|];
    [destruct (truthy (Some v) && Qltb (maxF1 f0) v)|];
    cbn [maxF1 minLoss sfold epochs];
    (destruct (valLoss m) as [l|];
     [destruct (truthy (Some l) && Qltb l (minLoss f0))|]);
    reflexivity.
Qed.

Lemma update_minLoss f0 m :
  minLoss (update f0 m) =
  match valLoss m with
  | Some l => if truthy (Some l) && Qltb l (minLoss f0) then l else minLoss f0
  | None => minLoss f0
  end.
Proof.
  unfold update. cbv zeta. cbn [maxF1 minLoss sfold epochs].
  destruct (valF1 m) as [v|];
    [destruct (truthy (Some v) && Qltb (maxF1 f0) v)|];
    cbn [maxF1 minLoss sfold epochs];
    (destruct (valLoss m) as [l|];
     [destruct (truthy (Some l) && Qltb l (minLoss f0))|]);
    reflexivity.
Qed.

Lemma update_maxF1_facts f0 m :
  (0 <= maxF1 f0)%Q ->
  (maxF1 f0 <= maxF1 (update f0 m))%Q /\
  (forall v, valF1 m = Some v -> (v <= maxF1 (update f0 m))%Q) /\
  (maxF1 (update f0 m) = maxF1 f0 \/
   valF1 m = Some (maxF1 (update f0 m))).
Proof.
  intros Hpos. rewrite update_maxF1.
  destruct (valF1 m) as [v|].
  - destruct (truthy (Some v)) eqn:Ht; simpl.
    + destruct (Qltb (maxF1 f0) v) eqn:Hlt.
      * split; [apply Qlt_le_weak, Qltb_true; exact Hlt|].
        split; [|right; reflexivity].
        intros v' Hv'. inversion Hv'. apply Qle_refl.
      * split; [apply Qle_refl|]. split; [|left; reflexivity].
        intros v' Hv'. inversion Hv'; subst. apply Qltb_false. exact Hlt.
    + split; [apply Qle_refl|]. split; [|left; reflexivity].
      intros v' Hv'. inversion Hv'; subst.
      rewrite (truthy_false _ Ht). exact Hpos.
  - split; [apply Qle_refl|]. split; [|left; reflexivity].
    intros v' Hv'. discriminate.
Qed.

Lemma update_minLoss_facts f0 m :
  (minLoss (update f0 m) <= minLoss f0)%Q /\
  (forall l, valLoss m = Some l -> ~ (l == 0)%Q ->
             (minLoss (update f0 m) <= l)%Q).
Proof.
  rewrite update_minLoss.
  destruct (valLoss m) as [l|].
  - destruct (truthy (Some l)) eqn:Ht; simpl.
    + destruct (Qltb l (minLoss f0)) eqn:Hlt.
      * split; [apply Qlt_le_weak, Qltb_true; exact Hlt|].
        intros l' Hl' _. inversion Hl'. apply Qle_refl.
      * split; [apply Qle_refl|].
        intros l' Hl' _. inversion Hl'; subst. apply Qltb_false. exact Hlt.
    + split; [apply Qle_refl|].
      intros l' Hl' Hnz. inversion Hl'; subst.
      rewrite (truthy_true _ Hnz) in Ht. discriminate.
  - split; [apply Qle_refl|]. intros l' Hl'. discriminate.
Qed.

Lemma update_entry_ok ms f0 m :
  fold m = sfold f0 ->
  (0 <= maxF1 f0)%Q -> (minLoss f0 <= 100)%Q -> 0 <= epochs f0 ->
  (maxF1 f0 = 0%Q \/
   exists m', In m' ms /\ fold m' = sfold f0 /\ valF1 m' = Some (maxF1 f0)) ->
  (forall m', In m' ms -> fold m' = sfold f0 ->
     epoch m' <= epochs f0 /\
     (forall v, valF1 m' = Some v -> (v <= maxF1 f0)%Q) /\
     (forall l, valLoss m' = Some l -> ~ (l == 0)%Q -> (minLoss f0 <= l)%Q)) ->
  entry_ok (ms ++ [m]) (update f0 m).
Proof.
  intros Hkey Hpos Hcap Hepochs Hattained Hbounds.
  destruct (update_maxF1_facts f0 m Hpos) as (Hgrow & Hown & Hwhich).
  destruct (update_minLoss_facts f0 m) as (Hshrink & Hownloss).
  unfold entry_ok. rewrite update_fold, update_epochs.
  split; [exists m; split; [apply in_or_app; right; left; reflexivity
                           | exact Hkey]|].
  split; [apply Qle_trans with (maxF1 f0); assumption|].
  split; [apply Qle_trans with (minLoss f0); assumption|].
  split; [lia|].
  split.
  - destruct Hwhich as [Hsame|Hnew].
    + rewrite Hsame. destruct Hattained as [Hzero|[m' (Hin & Hk & Hv)]];
        [left; exact Hzero|].
      right. exists m'. split; [apply in_or_app; left; exact Hin|].
      split; assumption.
    + right. exists m. split; [apply in_or_app; right; left; reflexivity|].
      split; assumption.
  - intros m' Hin Hk. apply in_app_or in Hin.
    destruct Hin as [Hold|[Hnew|[]]].
    + destruct (Hbounds m' Hold Hk) as (He & Hv & Hl).
      split; [lia|]. split.
      * intros v Hval. apply Qle_trans with (maxF1 f0); [apply Hv|]; assumption.
      * intros l Hval Hnz.
        apply Qle_trans with (minLoss f0); [|apply Hl]; assumption.
    + subst m'. split; [lia|]. split; assumption.
Qed.

Lemma entry_ok_keep ms f m :
  entry_ok ms f -> fold m <> sfold f -> entry_ok (ms ++ [m]) f.
Proof.
  intros (Hex & Hpos & Hcap & Hepochs & Hattained & Hbounds) Hother.
  unfold entry_ok.
  split.
  { destruct Hex as [m' [Hin Hk]]. exists m'.
    split; [apply in_or_app; left; exact Hin | exact Hk]. }
  split; [exact Hpos|]. split; [exact Hcap|]. split; [exact Hepochs|].
  split.
  - destruct Hattained as [Hzero|[m' (Hin & Hk & Hv)]]; [left; exact Hzero|].
    right. exists m'. split; [apply in_or_app; left; exact Hin|].
    split; assumption.
  - intros m' Hin Hk. apply in_app_or in Hin.
    destruct Hin as [Hold|[Hnew|[]]]; [apply Hbounds; assumption|].
    subst m'. contradiction.
Qed.

Lemma record_summarises ms folds m :
  summarises ms folds -> summarises (ms ++ [m]) (record folds m).
Proof.
  intros (Hnodup & Hentries & Hkeys). unfold record.
  set (f0 := match get (fold m) folds with
             | Some f => f
             | None => mkFold (fold m) 0 100 0
             end).
  assert (Hkey : fold m = sfold f0).
  { unfold f0. destruct (get (fold m) folds) as [f|] eqn:Hget;
      [|reflexivity].
    destruct (get_Some _ _ _ Hget) as [_ Hk]. symmetry. exact Hk. }
  assert (Hnew : entry_ok (ms ++ [m]) (update f0 m)).
  { unfold f0 in *. destruct (get (fold m) folds) as [f|] eqn:Hget.
    - destruct (get_Some _ _ _ Hget) as [Hin _].
      destruct (Hentries f Hin)
        as (_ & Hpos & Hcap & Hepochs & Hattained & Hbounds).
      apply update_entry_ok; assumption.
    - pose proof (get_None _ _ Hget) as Hfresh.
      apply update_entry_ok; simpl.
      + reflexivity.
      + apply Qle_refl.
      + apply Qle_refl.
      + lia.
      + left. reflexivity.
      + intros m' Hin Hk. exfalso. apply Hfresh. rewrite <- Hk.
        apply Hkeys. exact Hin. }
  split; [apply put_NoDup; exact Hnodup|]. split.
  - intros f Hin. destruct (put_In _ _ f Hnodup Hin) as [Hf|[Hold Hother]].
    + subst f. exact Hnew.
    + apply entry_ok_keep; [apply Hentries; exact Hold|].
      rewrite update_fold in Hother. congruence.
  - intros m' Hin. apply put_key. rewrite update_fold.
    apply in_app_or in Hin. destruct Hin as [Hold|[Hm|[]]].
    + right. apply Hkeys. exact Hold.
    + subst m'. left. exact Hkey.
Qed.

Lemma recorded_summarises ms : forall ms0 folds,
  summarises ms0 folds ->
  summarises (ms0 ++ ms) (fold_left record ms folds).
Proof.
  induction ms as [|m ms IH]; intros ms0 folds Hs; simpl.
  - rewrite app_nil_r. exact Hs.
  - replace (ms0 ++ m :: ms) with ((ms0 ++ [m]) ++ ms)
      by (rewrite <- app_assoc; reflexivity).
    apply IH. apply record_summarises. exact Hs.
Qed.

Lemma object_values_perm folds : Permutation (object_values folds) folds.
Proof.
  unfold object_values.
  eapply Permutation_trans;
    [apply Permutation_app_tail, sort_perm|].
  induction folds as [|f folds IH]; simpl; [apply Permutation_refl|].
  destruct (is_array_index (sfold f)); simpl.
  - apply perm_skip. exact IH.
  - eapply Permutation_trans;
      [apply Permutation_sym, Permutation_middle | apply perm_skip; exact IH].
Qed.

Lemma foldSummary_perm metrics :
  Permutation (foldSummary metrics)
    (fold_left record (epochData metrics) []).
Proof.
  unfold foldSummary.
  eapply Permutation_trans; [apply sort_perm | apply object_values_perm].
Qed.

Lemma foldSummary_summarises metrics :
  summarises (epochData metrics) (fold_left record (epochData metrics) []).
Proof.
  apply (recorded_summarises (epochData metrics) [] []).
  split; [constructor|]. split; [intros f []|intros m []].
Qed.

Lemma foldSummary_entry_ok metrics f :
  In f (foldSummary metrics) -> entry_ok (epochData metrics) f.
Proof.
  intros Hin.
  destruct (foldSummary_summarises metrics) as (_ & Hentries & _).
  apply Hentries.
  apply (Permutation_in _ (foldSummary_perm metrics)). exact Hin.
Qed.

Lemma epochData_In metrics m :
  In m (epochData metrics) <-> In m metrics /\ type m = "epoch_end"%string.
Proof.
  unfold epochData. rewrite filter_In, String.eqb_eq. reflexivity.
Qed.

Lemma by_fold_total a b : by_fold a b = false -> by_fold b a = true.
Proof.
  unfold by_fold. intros H. apply Z.leb_gt in H. apply Z.leb_le. lia.
Qed.

Lemma strictly_sorted (l : list FoldSummary) :
  NoDup (map sfold l) ->
  Sorted (fun a b => by_fold a b = true) l ->
  StronglySorted (fun a b => sfold a < sfold b) l.
Proof.
  intros Hnodup Hsorted.
  assert (Hweak : StronglySorted (fun a b => by_fold a b = true) l).
  { apply Sorted_StronglySorted; [|exact Hsorted].
    intros a b c Hab Hbc. unfold by_fold in *.
    apply Z.leb_le in Hab, Hbc. apply Z.leb_le. lia. }
  clear Hsorted.
  induction Hweak as [|a l Hrest IH Hall]; [constructor|].
  simpl in Hnodup. inversion Hnodup as [|? ? Hfresh Hnodup']; subst.
  constructor; [apply IH; exact Hnodup'|].
  rewrite Forall_forall in *. intros b Hb.
  specialize (Hall b Hb). unfold by_fold in Hall. apply Z.leb_le in Hall.
  assert (sfold a <> sfold b).
  { intros Heq. apply Hfresh. rewrite Heq. apply in_map. exact Hb. }
  lia.
Qed.

Lemma foldSummary_NoDup metrics :
  NoDup (map sfold (foldSummary metrics)).
Proof.
  destruct (foldSummary_summarises metrics) as (Hnodup & _).
  apply (Permutation_NoDup
           (l := map sfold (fold_left record (epochData metrics) [])));
    [|exact Hnodup].
  apply Permutation_map, Permutation_sym, foldSummary_perm.
Qed.

(** X19.  The dashboard lists one entry per fold, in ascending order of the
    fold number, and the folds listed are exactly the folds that have an
    [epoch_end] metric. *)
Theorem foldSummary_one_entry_per_fold metrics :
  StronglySorted (fun a b => sfold a < sfold b) (foldSummary metrics) /\
  forall key,
    In key (map sfold (foldSummary metrics)) <->
    exists m, In m metrics /\ type m = "epoch_end"%string /\ fold m = key.
Proof.
  split.
  - apply strictly_sorted; [apply foldSummary_NoDup|].
    unfold foldSummary. apply sort_sorted. apply by_fold_total.
  - intros key. split.
    + intros Hin. apply in_map_iff in Hin. destruct Hin as [f [Hkey Hin]].
      destruct (foldSummary_entry_ok metrics f Hin) as ([m [Hm Hfold]] & _).
      apply epochData_In in Hm. destruct Hm as [Hm Htype].
      exists m. split; [exact Hm|]. split; [exact Htype | congruence].
    + intros [m (Hm & Htype & Hfold)].
      destruct (foldSummary_summarises metrics) as (_ & _ & Hkeys).
      apply (Permutation_in _
               (Permutation_map sfold
                  (Permutation_sym (foldSummary_perm metrics)))).
      rewrite <- Hfold. apply Hkeys. apply epochData_In. split; assumption.
Qed.

(** X20.  The best F1 of an entry is at least 0 and at least every [valF1] of
    the [epoch_end] metrics of its fold, and it is one of these values
    unless it is 0: it is the largest validation F1 of the fold, or 0
    when none is positive. *)
Theorem foldSummary_maxF1 metrics f :
  In f (foldSummary metrics) ->
  (0 <= maxF1 f)%Q /\
  (forall m v, In m metrics -> type m = "epoch_end"%string ->
               fold m = sfold f -> valF1 m = Some v -> (v <= maxF1 f)%Q) /\
  (maxF1 f = 0%Q \/
   exists m, In m metrics /\ type m = "epoch_end"%string /\
             fold m = sfold f /\ valF1 m = Some (maxF1 f)).
Proof.
  intros Hin.
  destruct (foldSummary_entry_ok metrics f Hin)
    as (_ & Hpos & _ & _ & Hattained & Hbounds).
  split; [exact Hpos|]. split.
  - intros m v Hm Htype Hfold Hv.
    destruct (Hbounds m) as (_ & Hmax & _);
      [apply epochData_In; split; assumption | exact Hfold |].
    apply Hmax. exact Hv.
  - destruct Hattained as [Hzero|[m (Hm & Hfold & Hv)]]; [left; exact Hzero|].
    right. apply epochData_In in Hm. destruct Hm as [Hm Htype].
    exists m. repeat split; assumption.
Qed.

(** X21.  The smallest loss of an entry starts from 100 and never exceeds it,
    whatever the losses of the fold; it is at most every non-zero
    [valLoss] of the fold's [epoch_end] metrics (a loss of 0 is skipped).
    The epoch count is the largest epoch of the fold, and at least 0. *)
Theorem foldSummary_minLoss_epochs metrics f :
  In f (foldSummary metrics) ->
  (minLoss f <= 100)%Q /\ 0 <= epochs f /\
  forall m, In m metrics -> type m = "epoch_end"%string ->
            fold m = sfold f ->
    epoch m <= epochs f /\
    forall l, valLoss m = Some l -> ~ (l == 0)%Q -> (minLoss f <= l)%Q.
Proof.
  intros Hin.
  destruct (foldSummary_entry_ok metrics f Hin)
    as (_ & _ & Hcap & Hepochs & _ & Hbounds).
  split; [exact Hcap|]. split; [exact Hepochs|].
  intros m Hm Htype Hfold.
  destruct (Hbounds m) as (He & _ & Hl);
    [apply epochData_In; split; assumption | exact Hfold |].
  split; assumption.
Qed.


End DashboardFacts.

Lemma foldSummary_one_entry_per_fold_witness :
  map Dashboard.sfold (Dashboard.foldSummary Metrics.sample) = [1; 2] /\
  exists m, In m Metrics.sample /\
            Metrics.type m = "epoch_end"%string /\ Metrics.fold m = 2.
Proof.
  assert (Hkeys : map Dashboard.sfold (Dashboard.foldSummary Metrics.sample)
                  = [1; 2]) by (vm_compute; reflexivity).
  split; [exact Hkeys|].
  destruct (foldSummary_one_entry_per_fold Metrics.sample) as [_ Hfolds].
  destruct (Hfolds 2) as [Hsome _]. apply Hsome.
  rewrite Hkeys. right. left. reflexivity.
Defined.

Lemma foldSummary_maxF1_witness :
  In (Dashboard.mkFold 1 (41 # 50) (9 # 20) 2)
     (Dashboard.foldSummary Metrics.sample) /\
  (4 # 5 <= 41 # 50)%Q.
Proof.
  assert (Hin : In (Dashboard.mkFold 1 (41 # 50) (9 # 20) 2)
                   (Dashboard.foldSummary Metrics.sample))
    by (vm_compute; left; reflexivity).
  split; [exact Hin|].
  destruct (foldSummary_maxF1 Metrics.sample _ Hin) as (_ & Hmax & _).
  apply (Hmax (Metrics.mkMetric "epoch_end" 1 1 (Some (4 # 5)) (Some (1 # 2)))).
  - right. left. reflexivity.
  - reflexivity.
  - reflexivity.
  - reflexivity.
Defined.

Lemma foldSummary_minLoss_epochs_witness :
  In (Dashboard.mkFold 1 (41 # 50) (9 # 20) 2)
     (Dashboard.foldSummary Metrics.sample) /\
  (9 # 20 <= 100)%Q /\ 1 <= 2.
Proof.
  assert (Hin : In (Dashboard.mkFold 1 (41 # 50) (9 # 20) 2)
                   (Dashboard.foldSummary Metrics.sample))
    by (vm_compute; left; reflexivity).
  split; [exact Hin|].
  destruct (foldSummary_minLoss_epochs Metrics.sample _ Hin)
    as (Hcap & _ & Hbounds).
  split; [exact Hcap|].
  destruct (Hbounds
              (Metrics.mkMetric "epoch_end" 1 1 (Some (4 # 5)) (Some (1 # 2))))
    as [Hepoch _].
  - right. left. reflexivity.
  - reflexivity.
  - reflexivity.
  - exact Hepoch.
Defined.

(** ** The slides *)

Section SlidesFacts.

Import Metrics Slides.

Lemma or_zero_eq v : (or_zero (Some v) == v)%Q.
Proof.
  simpl. destruct (Qeq_bool v 0) eqn:E; [|reflexivity].
  apply Qeq_bool_iff in E. symmetry. exact E.
Qed.

Lemma or_zero_which v : or_zero (Some v) = 0%Q \/ or_zero (Some v) = v.
Proof. simpl. destruct (Qeq_bool v 0); [left | right]; reflexivity. Qed.

Lemma best_first_total a b : best_first a b = false -> best_first b a = true.
Proof.
  unfold best_first. intros H. apply Qle_bool_iff.
  apply Qlt_le_weak, Qnot_le_lt. intros Hle.
  apply Qle_bool_iff in Hle. congruence.
Qed.

Lemma best_first_trans a b c :
  best_first a b = true -> best_first b c = true -> best_first a c = true.
Proof.
  unfold best_first. intros Hab Hbc.
  apply Qle_bool_iff in Hab, Hbc. apply Qle_bool_iff.
  eapply Qle_trans; eassumption.
Qed.

Lemma foldMetrics_In metrics foldNum m :
  In m (foldMetrics metrics foldNum) <->
  In m metrics /\ fold m = foldNum /\ exists v, valF1 m = Some v.
Proof.
  unfold foldMetrics. rewrite filter_In, andb_true_iff, Z.eqb_eq.
  split.
  - intros (Hin & Hfold & Hdef). split; [exact Hin|]. split; [exact Hfold|].
    destruct (valF1 m) as [v|]; [exists v; reflexivity | discriminate].
  - intros (Hin & Hfold & [v Hv]). rewrite Hv. repeat split; assumption.
Qed.

(** The best metric of a fold: none when no metric of the fold carries a
    validation F1, else one whose F1 no other metric of the fold
    exceeds. *)
Lemma bestMetric_spec metrics foldNum :
  match bestMetric metrics foldNum with
  | Some best =>
      In best metrics /\ fold best = foldNum /\
      (exists v, valF1 best = Some v) /\
      forall m v, In m metrics -> fold m = foldNum -> valF1 m = Some v ->
                  (v <= or_zero (valF1 best))%Q
  | None =>
      forall m, In m metrics -> fold m = foldNum -> valF1 m = None
  end.
Proof.
  unfold bestMetric.
  pose proof (sort_head best_first best_first_total best_first_trans
                (foldMetrics metrics foldNum)) as Hhead.
  destruct (hd_error (sort best_first (foldMetrics metrics foldNum)))
    as [best|].
  - destruct Hhead as [Hin Hbest].
    apply foldMetrics_In in Hin. destruct Hin as (Hin & Hfold & Hdef).
    split; [exact Hin|]. split; [exact Hfold|]. split; [exact Hdef|].
    intros m v Hm Hk Hv.
    assert (Hmember : In m (foldMetrics metrics foldNum)).
    { apply foldMetrics_In. split; [exact Hm|]. split; [exact Hk|].
      exists v. exact Hv. }
    destruct (Hbest m Hmember) as [Hle|Heq].
    + unfold best_first in Hle. apply Qle_bool_iff in Hle.
      rewrite Hv in Hle. rewrite <- (or_zero_eq v). exact Hle.
    + subst m. rewrite Hv. rewrite or_zero_eq. apply Qle_refl.
  - intros m Hm Hk.
    destruct (valF1 m) as [v|] eqn:Hv; [|reflexivity].
    exfalso.
    assert (Hmember : In m (foldMetrics metrics foldNum)).
    { apply foldMetrics_In. split; [exact Hm|]. split; [exact Hk|].
      exists v. exact Hv. }
    rewrite Hhead in Hmember. exact Hmember.
Qed.

Lemma performance_f1_spec metrics foldNum :
  (forall m v, In m metrics -> fold m = foldNum -> valF1 m = Some v ->
               (v <= f1 (performance metrics foldNum))%Q) /\
  (f1 (performance metrics foldNum) = 0%Q \/
   exists m, In m metrics /\ fold m = foldNum /\
             valF1 m = Some (f1 (performance metrics foldNum))).
Proof.
  pose proof (bestMetric_spec metrics foldNum) as Hbest.
  unfold performance. cbn [f1].
  destruct (bestMetric metrics foldNum) as [best|].
  - destruct Hbest as (Hin & Hk & [v Hv] & Hmax).
    split; [exact Hmax|].
    rewrite Hv. destruct (or_zero_which v) as [Hzero|Hsame].
    + left. exact Hzero.
    + right. exists best. rewrite Hsame. repeat split; assumption.
  - split; [|left; reflexivity].
    intros m v Hm Hk Hv. rewrite (Hbest m Hm Hk) in Hv. discriminate.
Qed.

(** X23.  The slide of the folds always has the five bars "Fold 1" to "Fold 5".
    The F1 of a bar is at least every validation F1 of the metrics of its
    fold, of whatever type, and it is one of these values unless it
    is 0. *)
Theorem foldPerformance_best metrics :
  map label (foldPerformance metrics)
    = ["Fold 1"; "Fold 2"; "Fold 3"; "Fold 4"; "Fold 5"]%string /\
  forall foldNum,
    In foldNum folds ->
    In (performance metrics foldNum) (foldPerformance metrics) /\
    (forall m v, In m metrics -> fold m = foldNum -> valF1 m = Some v ->
                 (v <= f1 (performance metrics foldNum))%Q) /\
    (f1 (performance metrics foldNum) = 0%Q \/
     exists m, In m metrics /\ fold m = foldNum /\
               valF1 m = Some (f1 (performance metrics foldNum))).
Proof.
  split; [reflexivity|].
  intros foldNum Hfold.
  split; [unfold foldPerformance; apply in_map; exact Hfold|].
  apply performance_f1_spec.
Qed.

(** X24.  A fold without a metric that carries a validation F1 is shown with
    F1 0 and loss 0. *)
Theorem foldPerformance_missing_fold metrics foldNum :
  (forall m, In m metrics -> fold m = foldNum -> valF1 m = None) ->
  f1 (performance metrics foldNum) = 0%Q /\
  loss (performance metrics foldNum) = 0%Q.
Proof.
  intros Hnone.
  pose proof (bestMetric_spec metrics foldNum) as Hbest.
  unfold performance. cbn [f1 loss].
  destruct (bestMetric metrics foldNum) as [best|]; [|split; reflexivity].
  destruct Hbest as (Hin & Hk & [v Hv] & _).
  rewrite (Hnone best Hin Hk) in Hv. discriminate.
Qed.

(** X25.  The slide and the dashboard agree on the best F1 of a fold: when the
    validation F1 values are carried by [epoch_end] metrics and are not
    negative, the bar of the slide for a fold shows the best F1 the
    dashboard lists for it. *)
Theorem best_f1_agrees metrics f :
  (forall m v, In m metrics -> valF1 m = Some v ->
               type m = "epoch_end"%string /\ (0 <= v)%Q) ->
  In f (Dashboard.foldSummary metrics) ->
  (f1 (performance metrics (Dashboard.sfold f)) == Dashboard.maxF1 f)%Q.
Proof.
  intros Hdata Hin.
  destruct (performance_f1_spec metrics (Dashboard.sfold f))
    as [Hbound Hattained].
  destruct (foldSummary_entry_ok metrics f Hin)
    as (_ & Hpos & _ & _ & Hreached & Hbounds).
  apply Qle_antisym.
  - destruct Hattained as [Hzero|[m (Hm & Hk & Hv)]].
    + rewrite Hzero. exact Hpos.
    + destruct (Hdata m _ Hm Hv) as [Htype _].
      destruct (Hbounds m) as (_ & Hmax & _);
        [apply epochData_In; split; assumption | exact Hk |].
      apply Hmax. exact Hv.
  - destruct Hreached as [Hzero|[m (Hm & Hk & Hv)]].
    + rewrite Hzero.
      destruct Hattained as [Hnone|[m (Hm & Hk & Hv)]].
      * rewrite Hnone. apply Qle_refl.
      * destruct (Hdata m _ Hm Hv) as [_ Hnonneg]. exact Hnonneg.
    + apply epochData_In in Hm. destruct Hm as [Hm _].
      exact (Hbound m _ Hm Hk Hv).
Qed.


End SlidesFacts.

Lemma sample_valF1 m v :
  In m Metrics.sample -> Metrics.valF1 m = Some v ->
  Metrics.type m = "epoch_end"%string /\ (0 <= v)%Q /\ (v <= 1)%Q.
Proof.
  intros Hin Hv. simpl in Hin.
  destruct Hin as [Hm|[Hm|[Hm|[Hm|[]]]]]; subst m; simpl in Hv;
    try discriminate; injection Hv as <-;
    (split; [reflexivity|]); unfold Qle; simpl; split; lia.
Qed.

Lemma foldPerformance_best_witness :
  In 1 Slides.folds /\
  (4 # 5 <= Slides.f1 (Slides.performance Metrics.sample 1))%Q.
Proof.
  assert (Hfold : In 1 Slides.folds) by (left; reflexivity).
  split; [exact Hfold|].
  destruct (foldPerformance_best Metrics.sample) as [_ Hbars].
  destruct (Hbars 1 Hfold) as (_ & Hmax & _).
  apply (Hmax (Metrics.mkMetric "epoch_end" 1 1 (Some (4 # 5)) (Some (1 # 2)))).
  - right. left. reflexivity.
  - reflexivity.
  - reflexivity.
Defined.

Lemma foldPerformance_missing_fold_witness :
  (forall m, In m Metrics.sample -> Metrics.fold m = 3 ->
             Metrics.valF1 m = None) /\
  Slides.f1 (Slides.performance Metrics.sample 3) = 0%Q /\
  Slides.loss (Slides.performance Metrics.sample 3) = 0%Q.
Proof.
  assert (Hnone : forall m, In m Metrics.sample -> Metrics.fold m = 3 ->
                            Metrics.valF1 m = None).
  { intros m Hin Hfold.
    repeat (destruct Hin as [Hm|Hin];
            [subst m; simpl in Hfold; discriminate|]).
    destruct Hin. }
  split; [exact Hnone|].
  exact (foldPerformance_missing_fold Metrics.sample 3 Hnone).
Defined.

Lemma best_f1_agrees_witness :
  In (Dashboard.mkFold 2 (3 # 4) (3 # 5) 1)
     (Dashboard.foldSummary Metrics.sample) /\
  (Slides.f1 (Slides.performance Metrics.sample 2) == 3 # 4)%Q.
Proof.
  assert (Hin : In (Dashboard.mkFold 2 (3 # 4) (3 # 5) 1)
                   (Dashboard.foldSummary Metrics.sample))
    by (vm_compute; right; left; reflexivity).
  split; [exact Hin|].
  assert (Hdata : forall m v, In m Metrics.sample ->
                    Metrics.valF1 m = Some v ->
                    Metrics.type m = "epoch_end"%string /\ (0 <= v)%Q).
  { intros m v Hm Hv.
    destruct (sample_valF1 m v Hm Hv) as (Htype & Hpos & _).
    split; assumption. }
  exact (best_f1_agrees Metrics.sample
           (Dashboard.mkFold 2 (3 # 4) (3 # 5) 1) Hdata Hin).
Defined.

